(** * EdgeSplitModifier: a shallow embedding of [modify] and its properties

    The development follows [src/modifiers/EdgeSplitModifier.ts].  Typed
    arrays are lists read and written by position ([!!] and [<[ _ := _ ]>]
    of stdpp: a write outside the array is dropped, as a typed array does),
    plain JavaScript arrays are lists of optional cells (a hole is [None],
    a write past the end extends the array), and the objects the caller
    can see live in a store of geometries addressed by position.

    JavaScript numbers and the three.js classes the modifier imports
    ([Vector3], [Math.cos], [BufferGeometry.computeVertexNormals],
    [BufferGeometryUtils.mergeVertices]) are not part of the repository:
    they are the fields of the interface [FloatOps] and the variables of
    the section below. *)

From Stdlib Require Import QArith.
From stdpp Require Import strings numbers.
From stdpp Require Import base list.

Set Default Proof Using "Type".
Close Scope Q_scope.
Open Scope nat_scope.

#[global] Arguments Nat.div : simpl never.
#[global] Arguments Nat.modulo : simpl never.

(** ** Numbers and vectors *)

Record Vector3 (num : Type) := mkVector3 { vx : num; vy : num; vz : num }.
Arguments mkVector3 {num} _ _ _.
Arguments vx {num} _.
Arguments vy {num} _.
Arguments vz {num} _.

(** The arithmetic the modifier asks of its host. *)
Class FloatOps (num : Type) := {
  zero : num;                              (* the fill of a fresh typed array *)
  nan : num;                               (* what arithmetic makes of [undefined] *)
  fround : num -> num;                     (* a store into a Float32Array *)
  fsub : num -> num -> num;                (* [a - b] *)
  flt : num -> num -> bool;                (* [a < b] *)
  fge : num -> num -> bool;                (* [a >= b] *)
  fcos : num -> num;                       (* [Math.cos] *)
  fpi : num;                               (* [Math.PI] *)
  milli : num;                             (* the literal [0.001] *)
  vsub : Vector3 num -> Vector3 num -> Vector3 num;    (* [a.sub( b )] *)
  vcross : Vector3 num -> Vector3 num -> Vector3 num;  (* [a.cross( b )] *)
  vnormalize : Vector3 num -> Vector3 num;             (* [a.normalize()] *)
  vdot : Vector3 num -> Vector3 num -> num             (* [a.dot( b )] *)
}.

(** ** Geometries, outcomes and the store *)

Record BufferAttribute (num : Type) := mkAttribute {
  array : list num;
  itemSize : nat;
  normalized : bool
}.
Arguments mkAttribute {num} _ _ _.
Arguments array {num} _.
Arguments itemSize {num} _.
Arguments normalized {num} _.

Record BufferGeometry (num : Type) := mkGeometry {
  isGeometry : bool;                                   (* the legacy [THREE.Geometry] flag *)
  index : option (list nat);                           (* [geometry.index], [null] when absent *)
  attributes : list (string * BufferAttribute num)     (* in [Object.keys] order *)
}.
Arguments mkGeometry {num} _ _ _.
Arguments isGeometry {num} _.
Arguments index {num} _.
Arguments attributes {num} _.

Inductive Exception :=
| RelyOnBufferGeometryUtils   (* throw 'THREE.EdgeSplitModifier relies on BufferGeometryUtils' *)
| TypeError                   (* a property read on [undefined] or [null] *)
| RangeError                  (* an invalid array length, or a [set] that does not fit *)
| FractionalVertexCount       (* [positions.length / itemSize] is no integer: outside the model *)
| OutOfFuel.                  (* the recursion budget of the model ran out *)

Inductive Outcome (num : Type) :=
| Returned (geometry : BufferGeometry num)   (* [return geometry] *)
| ReturnedUndefined                          (* [console.error( ... ); return;] *)
| Thrown (e : Exception).
Arguments Returned {num} _.
Arguments ReturnedUndefined {num}.
Arguments Thrown {num} _.

(** An entry pushed on [splitIndexes]. *)
Record Split := mkSplit { original : nat; indexes : list nat }.

(** What [edgeSplitToGroups] returns. *)
Record GroupResult := mkGroupResult { splitGroup : list nat; currentGroup : list nat }.

(** A Uint32Array keeps a stored integer modulo 2^32. *)
Definition wrap32 (n : nat) : nat := N.to_nat (N.of_nat n mod 2 ^ 32)%N.

(** ** Plain JavaScript arrays *)

(** [a[ i ] = x] on a plain array: past the end the array grows and the
    cells in between stay holes. *)
Definition arraySet {A} (a : list (option A)) (i : nat) (x : A) : list (option A) :=
  if decide (i < length a) then <[i := Some x]> a
  else a ++ replicate (i - length a) None ++ [Some x].

(** [a[ i ]], with [None] for [undefined] (a hole or past the end). *)
Definition arrayGet {A} (a : list (option A)) (i : nat) : option A :=
  a !! i ≫= id.

(** [original || alternative]: [null] and [0] are falsy. *)
Definition orElse (original : option nat) (alternative : nat) : nat :=
  match original with
  | Some (S o) => S o
  | _ => alternative
  end.

(** ** Attribute dictionaries *)

Section Attributes.
Context {num : Type}.

Fixpoint getAttribute (name : string) (attrs : list (string * BufferAttribute num))
  : option (BufferAttribute num) :=
  match attrs with
  | [] => None
  | (k, a) :: rest => if decide (k = name) then Some a else getAttribute name rest
  end.

Definition deleteAttribute (name : string) (attrs : list (string * BufferAttribute num))
  : list (string * BufferAttribute num) :=
  filter (fun ka => ka.1 ≠ name) attrs.

(** [geometry.clone()] copies every buffer: as a value the clone is the
    geometry it was made from, at a new address. *)
Definition clone (g : BufferGeometry num) : BufferGeometry num := g.

End Attributes.

(** ** The modifier *)

Section Modifier.
Context {num : Type} `{FloatOps num}.

(** The array [geometry.computeVertexNormals()] installs as the
    attribute [normal] of the geometry it is called on. *)
Variable computeVertexNormals : BufferGeometry num -> list num.

(** [BufferGeometryUtils], [None] when the import is [undefined]; its
    [mergeVertices] returns a new geometry. *)
Variable BufferGeometryUtils : option (BufferGeometry num -> BufferGeometry num).

(** A read of a typed array: out of range it is [undefined], which
    every consumer below turns into NaN. *)
Definition rd (a : list num) (i : nat) : num := default nan (a !! i).

(** [positions[ 3 * index ]] and its two neighbours, [index] itself
    being read from the index buffer. *)
Definition positionOf (positions : list num) (index : option nat) : Vector3 num :=
  match index with
  | Some index =>
      mkVector3 (rd positions (3 * index)) (rd positions (3 * index + 1))
                (rd positions (3 * index + 2))
  | None => mkVector3 nan nan nan
  end.

(** One turn of the loop of [computeNormals] (lines 16-50), for the
    triangle at slot [i]. *)
Definition computeNormalsStep (indexes : list nat) (positions : list num)
    (normals : list num) (i : nat) : list num :=
  let _A := positionOf positions (indexes !! i) in
  let _B := positionOf positions (indexes !! (i + 1)) in
  let _C := positionOf positions (indexes !! (i + 2)) in
  let _C := vsub _C _B in
  let _A := vsub _A _B in
  let normal := vnormalize (vcross _C _A) in
  fold_left (fun normals j =>
      <[3 * (i + j) + 2 := fround (vz normal)]>
        (<[3 * (i + j) + 1 := fround (vy normal)]>
           (<[3 * (i + j) := fround (vx normal)]> normals)))
    (seq 0 3) normals.

(** The slots [0, 3, 6, ...] below [n]. *)
Definition triangleSlots (n : nat) : list nat :=
  map (fun t => 3 * t) (seq 0 ((n + 2) / 3)).

Definition computeNormals (indexes : list nat) (positions : list num) : list num :=
  fold_left (computeNormalsStep indexes positions)
    (triangleSlots (length indexes))
    (replicate (length indexes * 3) zero).

(** [mapPositionsToIndexes] (lines 55-73), started from
    [Array( vertexCount )]: one turn of its loop, then the loop. *)
Definition mapPositionsToIndexesStep (pointToIndexMap : list (option (list nat)))
    (i_index : nat * nat) : list (option (list nat)) :=
  let '(i, index) := i_index in
  let cell := match arrayGet pointToIndexMap index with
              | None => []
              | Some cell => cell
              end in
  arraySet pointToIndexMap index (cell ++ [i]).

Definition mapPositionsToIndexes (indexes : list nat) (vertexCount : nat)
  : list (option (list nat)) :=
  fold_left mapPositionsToIndexesStep
    (zip (seq 0 (length indexes)) indexes)
    (replicate vertexCount None).

(** The face normal stored at corner [i], normalised again (lines 78
    and 89). *)
Definition normalAt (normals : list num) (i : nat) : Vector3 num :=
  vnormalize (mkVector3 (rd normals (3 * i)) (rd normals (3 * i + 1))
                        (rd normals (3 * i + 2))).

Definition edgeSplitToGroupsStep (normals : list num) (cutOff : num) (firstIndex : nat)
    (_A : Vector3 num) (result : GroupResult) (j : nat) : GroupResult :=
  if decide (j ≠ firstIndex) then
    let _B := normalAt normals j in
    if flt (vdot _B _A) cutOff
    then mkGroupResult (splitGroup result ++ [j]) (currentGroup result)
    else mkGroupResult (splitGroup result) (currentGroup result ++ [j])
  else result.

Definition edgeSplitToGroups (normals : list num) (indexes : list nat) (cutOff : num)
    (firstIndex : nat) : GroupResult :=
  let _A := normalAt normals firstIndex in
  fold_left (edgeSplitToGroupsStep normals cutOff firstIndex _A) indexes
    (mkGroupResult [] [firstIndex]).

(** The candidates of [edgeSplit] (lines 114-120), one per corner taken
    as seed. *)
Definition groupResults (normals : list num) (indexes : list nat) (cutOff : num)
  : list GroupResult :=
  map (edgeSplitToGroups normals indexes cutOff) indexes.

(** The scan of lines 122-132, which keeps a candidate only when its
    [currentGroup] is strictly longer than the one held so far. *)
Definition largestGroup (first : GroupResult) (candidates : list GroupResult) : GroupResult :=
  fold_left (fun result groupResult =>
      if decide (length (currentGroup result) < length (currentGroup groupResult))
      then groupResult else result)
    candidates first.

(** [result] of [edgeSplit] for a corner list whose first corner is [index0]. *)
Definition selectGroup (normals : list num) (indexes : list nat) (cutOff : num)
    (index0 : nat) : GroupResult :=
  largestGroup (edgeSplitToGroups normals indexes cutOff index0)
    (groupResults normals indexes cutOff).

(** [edgeSplit]: the entries it pushes on [splitIndexes], in order.
    [fuel] bounds the depth of the recursion. *)
Fixpoint edgeSplit (fuel : nat) (normals : list num) (indexes : list nat) (cutOff : num)
    (original : option nat) : option (list Split) :=
  match indexes with
  | [] => Some []
  | index0 :: _ =>
      match fuel with
      | 0 => None
      | S fuel =>
          let result := selectGroup normals indexes cutOff index0 in
          let pushed := match original with
                        | Some original => [mkSplit original (currentGroup result)]
                        | None => []
                        end in
          match splitGroup result with
          | [] => Some pushed
          | _ :: _ =>
              rest ← edgeSplit fuel normals (splitGroup result) cutOff
                       (Some (orElse original (default 0 (head (currentGroup result)))));
              Some (pushed ++ rest)
          end
      end
  end.

(** The loop over [pointToIndexMap] (lines 199-203): a hole is handed to
    [edgeSplit] as [undefined], whose [length] cannot be read. *)
Fixpoint splitAll (normals : list num) (cutOff : num)
    (pointToIndexMap : list (option (list nat))) : Exception + list Split :=
  match pointToIndexMap with
  | [] => inr []
  | None :: _ => inl TypeError
  | Some vertexIndexes :: rest =>
      match edgeSplit (length vertexIndexes) normals vertexIndexes cutOff None with
      | None => inl OutOfFuel
      | Some pushed =>
          match splitAll normals cutOff rest with
          | inl e => inl e
          | inr more => inr (pushed ++ more)
          end
      end
  end.

(** [new oldAttribute.array.constructor( n )] followed by
    [newArray.set( oldAttribute.array )] (lines 217-218): the copy throws
    when the old array is the longer one. *)
Definition growArray (a : list num) (n : nat) : option (list num) :=
  if decide (length a ≤ n) then Some (a ++ replicate (n - length a) zero) else None.

Fixpoint newAttributesOf (new_nb_indices : nat) (attrs : list (string * BufferAttribute num))
  : option (list (string * BufferAttribute num)) :=
  match attrs with
  | [] => Some []
  | (name, oldAttribute) :: rest =>
      newArray ← growArray (array oldAttribute) (new_nb_indices * itemSize oldAttribute);
      more ← newAttributesOf new_nb_indices rest;
      Some ((name, mkAttribute newArray (itemSize oldAttribute) (normalized oldAttribute))
              :: more)
  end.

(** The copy of vertex [index] into vertex [target] of one attribute
    (lines 232-237). *)
Definition copyVertex (index : option nat) (target : nat) (attribute : BufferAttribute num)
  : BufferAttribute num :=
  mkAttribute
    (fold_left (fun a j =>
         <[target * itemSize attribute + j :=
             match index with
             | Some index => rd a (index * itemSize attribute + j)
             | None => nan
             end]> a)
       (seq 0 (itemSize attribute)) (array attribute))
    (itemSize attribute) (normalized attribute).

(** The loop over [splitIndexes] that fills the new vertices and
    redirects their corners (lines 225-247); [i] is the position of the
    first entry of [splits]. *)
Fixpoint applySplits (indexes : list nat) (old_nb_indices : nat) (i : nat)
    (splits : list Split)
    (newAttributes : list (string * BufferAttribute num)) (newIndexes : list nat)
  : list (string * BufferAttribute num) * list nat :=
  match splits with
  | [] => (newAttributes, newIndexes)
  | mkSplit original group :: rest =>
      let index := indexes !! original in
      let newAttributes :=
        map (fun ka => (ka.1, copyVertex index (old_nb_indices + i) ka.2)) newAttributes in
      let newIndexes :=
        fold_left (fun newIndexes j => <[j := wrap32 (old_nb_indices + i)]> newIndexes)
          group newIndexes in
      applySplits indexes old_nb_indices (S i) rest newAttributes newIndexes
  end.

(** The marks of the vertices whose normal is left as recomputed (lines
    264-267). *)
Definition changedNormalsOf (count : nat) (splits : list Split) : list (option bool) :=
  fold_left (fun changedNormals splitData => arraySet changedNormals (original splitData) true)
    splits (replicate count (Some false)).

(** The loop that writes the old normals back (lines 269-278). *)
Definition restoreNormals (oldNormals : list num) (changedNormals : list (option bool))
    (normal : list num) : list num :=
  fold_left (fun normal i =>
      match arrayGet changedNormals i with
      | Some false =>
          fold_left (fun normal j => <[3 * i + j := fround (rd oldNormals (3 * i + j))]> normal)
            (seq 0 3) normal
      | _ => normal
      end)
    (seq 0 (length changedNormals)) normal.

(** The attribute [normal] after [computeVertexNormals]: an existing
    attribute keeps its place, a new one comes last. *)
Fixpoint setNormal (normal : list num) (attrs : list (string * BufferAttribute num))
  : list (string * BufferAttribute num) :=
  match attrs with
  | [] => [("normal"%string, mkAttribute normal 3 false)]
  | (k, a) :: rest =>
      if decide (k = "normal"%string)
      then (k, mkAttribute normal (itemSize a) (normalized a)) :: rest
      else (k, a) :: setNormal normal rest
  end.

(** Lines 258-283: the normals of the rebuilt geometry. *)
Definition reconcileNormals (hadNormals : bool) (oldNormals : option (list num))
    (splits : list Split) (geometry : BufferGeometry num) : Outcome num :=
  if hadNormals then
    let computed := computeVertexNormals geometry in
    match oldNormals with
    | None =>
        Returned (mkGeometry false (index geometry)
                    (setNormal computed (attributes geometry)))
    | Some oldNormals =>
        if decide (length oldNormals `mod` 3 = 0) then
          let changedNormals := changedNormalsOf (length oldNormals / 3) splits in
          Returned (mkGeometry false (index geometry)
                      (setNormal (restoreNormals oldNormals changedNormals computed)
                         (attributes geometry)))
        else Thrown RangeError
    end
  else Returned geometry.

(** Lines 194-203: [splitIndexes] once the loop over the corner index
    is over, or what the loop throws. *)
Definition splitIndexesOf (indexes : list nat) (positions : list num) (cutOffAngle : num)
  : Exception + list Split :=
  let normals := computeNormals indexes positions in
  let pointToIndexMap := mapPositionsToIndexes indexes (length positions / 3) in
  splitAll normals (fsub (fcos cutOffAngle) milli) pointToIndexMap.

(** Lines 188-285: everything after the geometry is known to be indexed. *)
Definition rebuild (geometry : BufferGeometry num) (cutOffAngle : num)
    (hadNormals : bool) (oldNormals : option (list num)) : Outcome num :=
  match index geometry with
  | None => Thrown TypeError
  | Some indexes =>
      match getAttribute "position" (attributes geometry) with
      | None => Thrown TypeError
      | Some position =>
          let positions := array position in
          if decide (length positions `mod` 3 = 0) then
            match splitIndexesOf indexes positions cutOffAngle with
            | inl e => Thrown e
            | inr splitIndexes =>
                if decide (itemSize position ≠ 0
                           ∧ length positions `mod` itemSize position = 0) then
                  let old_nb_indices := length positions / itemSize position in
                  let new_nb_indices := old_nb_indices + length splitIndexes in
                  match newAttributesOf new_nb_indices (attributes geometry) with
                  | None => Thrown RangeError
                  | Some newAttributes =>
                      let '(newAttributes, newIndexes) :=
                        applySplits indexes old_nb_indices 0 splitIndexes
                          newAttributes (map wrap32 indexes) in
                      reconcileNormals hadNormals oldNormals splitIndexes
                        (mkGeometry false (Some newIndexes) newAttributes)
                  end
                else Thrown FractionalVertexCount
            end
          else Thrown RangeError
      end
  end.

(** The store: the geometries that exist, a reference being a position. *)
#[local] Abbreviation Store := (list (BufferGeometry num)).

(** [modify( geometry, cutOffAngle, tryKeepNormals )] on the geometry
    at reference [geometry] of the store: the store it leaves and what
    the caller gets. *)
Definition modify (σ : Store) (geometry : nat) (cutOffAngle : num) (tryKeepNormals : bool)
  : Store * Outcome num :=
  match σ !! geometry with
  | None => (σ, Thrown TypeError)
  | Some g =>
      if isGeometry g then (σ, ReturnedUndefined)
      else
        let '(σ, geometry, hadNormals, oldNormals) :=
          match getAttribute "normal" (attributes g) with
          | Some normal =>
              (* geometry = geometry.clone(); ...; geometry.deleteAttribute( 'normal' ) *)
              let copy := length σ in
              let σ := σ ++ [clone g] in
              let oldNormals :=
                if tryKeepNormals && bool_decide (index g ≠ None)
                then Some (array normal) else None in
              (<[copy := mkGeometry (isGeometry g) (index g)
                           (deleteAttribute "normal" (attributes g))]> σ,
               copy, true, oldNormals)
          | None => (σ, geometry, false, None)
          end in
        match σ !! geometry with
        | None => (σ, Thrown TypeError)
        | Some g =>
            match index g with
            | None =>
                match BufferGeometryUtils with
                | None => (σ, Thrown RelyOnBufferGeometryUtils)
                | Some mergeVertices =>
                    let merged := mergeVertices g in
                    (σ ++ [merged], rebuild merged cutOffAngle hadNormals oldNormals)
                end
            | Some _ => (σ, rebuild g cutOffAngle hadNormals oldNormals)
            end
        end
  end.

End Modifier.

(** ** A host with exact arithmetic

    Numbers are rationals in lowest terms, or NaN ([None]).  Square roots
    are exact on squares of rationals and cosines are a Taylor polynomial
    around zero, so that on the meshes used below (integer coordinates,
    face normals of rational length) every comparison the modifier makes
    comes out as it does in IEEE arithmetic. *)

Module Exact.

Definition num : Type := option Q.

Definition lift2 (f : Q -> Q -> Q) (a b : num) : num :=
  match a, b with
  | Some x, Some y => Some (Qred (f x y))
  | _, _ => None
  end.

Definition add : num -> num -> num := lift2 Qplus.
Definition sub : num -> num -> num := lift2 Qminus.
Definition mul : num -> num -> num := lift2 Qmult.
Definition div : num -> num -> num := lift2 Qdiv.

Definition lt (a b : num) : bool :=
  match a, b with
  | Some x, Some y => match (x ?= y)%Q with Lt => true | _ => false end
  | _, _ => false
  end.

Definition ge (a b : num) : bool :=
  match a, b with
  | Some x, Some y => match (x ?= y)%Q with Lt => false | _ => true end
  | _, _ => false
  end.

Definition sqrtQ (q : Q) : Q :=
  Qred (Z.sqrt (Qnum q * Zpos (Qden q)) # Qden q).

Fixpoint cosSeries (n : nat) (k : Z) (term acc x2 : Q) : Q :=
  match n with
  | 0 => acc
  | S n =>
      let term := Qred (- term * x2 / ((2 * k + 1) * (2 * k + 2) # 1)) in
      cosSeries n (k + 1)%Z term (Qred (acc + term)) x2
  end.

Definition cos (a : num) : num :=
  match a with
  | Some x => Some (cosSeries 14 0 1 1 (Qred (x * x)))
  | None => None
  end.

Definition of_Z (z : Z) : num := Some (z # 1)%Q.

Definition add3 (a b : Vector3 num) : Vector3 num :=
  mkVector3 (add (vx a) (vx b)) (add (vy a) (vy b)) (add (vz a) (vz b)).

Definition sub3 (a b : Vector3 num) : Vector3 num :=
  mkVector3 (sub (vx a) (vx b)) (sub (vy a) (vy b)) (sub (vz a) (vz b)).

Definition cross3 (a b : Vector3 num) : Vector3 num :=
  mkVector3 (sub (mul (vy a) (vz b)) (mul (vz a) (vy b)))
            (sub (mul (vz a) (vx b)) (mul (vx a) (vz b)))
            (sub (mul (vx a) (vy b)) (mul (vy a) (vx b))).

Definition dot3 (a b : Vector3 num) : num :=
  add (add (mul (vx a) (vx b)) (mul (vy a) (vy b))) (mul (vz a) (vz b)).

(** [this.divideScalar( this.length() || 1 )] *)
Definition normalize3 (a : Vector3 num) : Vector3 num :=
  let length :=
    match dot3 a a with
    | Some q => if Qeq_bool q 0 then of_Z 1 else Some (sqrtQ q)
    | None => of_Z 1
    end in
  mkVector3 (div (vx a) length) (div (vy a) length) (div (vz a) length).

#[global] Instance ops : FloatOps num := {|
  zero := of_Z 0;
  nan := None;
  fround := fun x => x;
  fsub := sub;
  flt := lt;
  fge := ge;
  fcos := cos;
  fpi := Some (355 # 113)%Q;
  milli := Some (1 # 1000)%Q;
  vsub := sub3;
  vcross := cross3;
  vnormalize := normalize3;
  vdot := dot3
|}.

(** [computeVertexNormals] of three.js on an indexed geometry: every
    triangle adds its cross product to its three vertices, then every
    vertex normal is normalised. *)
Definition vertexAt (a : list num) (size i : nat) : Vector3 num :=
  mkVector3 (rd a (i * size)) (rd a (i * size + 1)) (rd a (i * size + 2)).

Definition setVertex (a : list num) (i : nat) (v : Vector3 num) : list num :=
  <[3 * i + 2 := vz v]> (<[3 * i + 1 := vy v]> (<[3 * i := vx v]> a)).

Definition accumulate (indexes : list nat) (position : BufferAttribute num)
    (normal : list num) (i : nat) : list num :=
  match indexes !! i, indexes !! (i + 1), indexes !! (i + 2) with
  | Some vA, Some vB, Some vC =>
      let p v := vertexAt (array position) (itemSize position) v in
      let cb := vcross (vsub (p vC) (p vB)) (vsub (p vA) (p vB)) in
      let normal := setVertex normal vA (add3 (vertexAt normal 3 vA) cb) in
      let normal := setVertex normal vB (add3 (vertexAt normal 3 vB) cb) in
      setVertex normal vC (add3 (vertexAt normal 3 vC) cb)
  | _, _, _ => normal
  end.

Definition computeVertexNormals (g : BufferGeometry num) : list num :=
  match index g, getAttribute "position" (attributes g) with
  | Some indexes, Some position =>
      let count := length (array position) / itemSize position in
      let summed :=
        fold_left (accumulate indexes position)
          (triangleSlots (length indexes)) (replicate (count * 3) (of_Z 0)) in
      fold_left (fun normal i => setVertex normal i (vnormalize (vertexAt normal 3 i)))
        (seq 0 count) summed
  | _, _ => []
  end.

(** A typed array of integers. *)
Definition ints (l : list Z) : list num := map of_Z l.

(** An indexed geometry with positions and, when given, normals. *)
Definition mesh (indexes : list nat) (positions : list Z) (normals : option (list Z))
  : BufferGeometry num :=
  mkGeometry false (Some indexes)
    (("position"%string, mkAttribute (ints positions) 3 false)
       :: match normals with
          | Some normals => [("normal"%string, mkAttribute (ints normals) 3 false)]
          | None => []
          end).

Definition run (g : BufferGeometry num) (cutOffAngle : num) (tryKeepNormals : bool)
  : Outcome num :=
  (modify computeVertexNormals None [g] 0 cutOffAngle tryKeepNormals).2.

End Exact.

(** ** The vocabulary of the properties *)

(** The slots of the index buffer that reference vertex [v], in order. *)
Definition cornersOf (indexes : list nat) (v : nat) : list nat :=
  filter (fun i => indexes !! i = Some v) (seq 0 (length indexes)).

(** The corners held by a corner index, all cells together. *)
Definition cornerCount (m : list (option (list nat))) : nat :=
  sum_list_with (fun cell => length (default [] cell)) m.

Section Vocabulary.
Context {num : Type} `{FloatOps num}.
Implicit Types (normals : list num) (cutOff : num) (L : list nat) (seed j : nat)
  (g : BufferGeometry num) (ixs : list nat) (position attribute : BufferAttribute num)
  (splits : list Split).

(** Corner [j] stays with [seed]: the test [_B.dot( _A ) < cutOff] fails. *)
Definition compatible normals cutOff seed j : Prop :=
  flt (vdot (normalAt normals j) (normalAt normals seed)) cutOff = false.

#[global] Instance compatible_dec normals cutOff seed j :
  Decision (compatible normals cutOff seed j).
Proof. unfold compatible. apply _. Defined.

(** The groups the recursion emits, the first one included: the
    [currentGroup] kept by each call. *)
Fixpoint edgeSplitGroups (fuel : nat) normals L cutOff : list (list nat) :=
  match L with
  | [] => []
  | index0 :: _ =>
      match fuel with
      | 0 => []
      | S fuel =>
          let result := selectGroup normals L cutOff index0 in
          currentGroup result :: edgeSplitGroups fuel normals (splitGroup result) cutOff
      end
  end.

(** The trial partition of the seed [c], in the words of the
    specification: [currentGroup] is [c] with every other corner whose
    normal has a dot product with the normal of [c] of at least the
    threshold, [splitGroup] is the rest of the list. *)
Definition trialPartition normals L cutOff (c : nat) : GroupResult :=
  let current :=
    c :: filter (fun x => x ≠ c
                          ∧ fge (vdot (normalAt normals x) (normalAt normals c)) cutOff = true)
           L in
  mkGroupResult (filter (fun x => x ∉ current) L) current.

(** The two comparisons agree on the corners of [L]: no dot product is NaN. *)
Definition determinate normals L cutOff : Prop :=
  ∀ x c, x ∈ L → c ∈ L →
    fge (vdot (normalAt normals x) (normalAt normals c)) cutOff
    = negb (flt (vdot (normalAt normals x) (normalAt normals c)) cutOff).

(** The greedy partition of a corner list: a group is a seed of the list
    with every other corner that passes the test against the seed, and
    the corners that fail it are partitioned in turn. *)
Inductive greedyGroups normals cutOff : list nat → list (list nat) → Prop :=
| greedy_nil : greedyGroups normals cutOff [] []
| greedy_cons L seed groups :
    seed ∈ L →
    greedyGroups normals cutOff
      (filter (fun j => j ≠ seed ∧ ¬ compatible normals cutOff seed j) L) groups →
    greedyGroups normals cutOff L
      ((seed :: filter (fun j => j ≠ seed ∧ compatible normals cutOff seed j) L) :: groups).

(** The normal of the triangle whose first corner is slot [i]:
    [normalize( cross( pC - pB, pA - pB ) )] on the positions of its three
    corners. *)
Definition faceNormal (indexes : list nat) (positions : list num) (i : nat) : Vector3 num :=
  vnormalize
    (vcross
       (vsub (positionOf positions (indexes !! (i + 2)))
             (positionOf positions (indexes !! (i + 1))))
       (vsub (positionOf positions (indexes !! i))
             (positionOf positions (indexes !! (i + 1))))).

(** The attributes after the loop over [splitIndexes], one at a time. *)
Fixpoint copyAll (indexes : list nat) (old_nb_indices i : nat) (splits : list Split)
    attribute : BufferAttribute num :=
  match splits with
  | [] => attribute
  | mkSplit original _ :: rest =>
      copyAll indexes old_nb_indices (S i) rest
        (copyVertex (indexes !! original) (old_nb_indices + i) attribute)
  end.

(** [oldAttribute] moved into an array of [n] vertices. *)
Definition grown (n : nat) attribute : BufferAttribute num :=
  mkAttribute
    (array attribute ++ replicate (n * itemSize attribute - length (array attribute)) zero)
    (itemSize attribute) (normalized attribute).

(** The geometry assembled at lines 249-256, before its normals. *)
Definition rebuiltGeometry ixs (attrs : list (string * BufferAttribute num))
    (old_nb_indices : nat) splits : BufferGeometry num :=
  let new_nb_indices := old_nb_indices + length splits in
  let newAttributes := map (fun ka => (ka.1, grown new_nb_indices ka.2)) attrs in
  mkGeometry false
    (Some (applySplits ixs old_nb_indices 0 splits newAttributes (map wrap32 ixs)).2)
    (map (fun ka => (ka.1, copyAll ixs old_nb_indices 0 splits
                             (grown new_nb_indices ka.2))) attrs).

(** An indexed triangle list over parallel attribute arrays: every
    attribute holds the same number of vertices, positions and normals
    have three components, every index is the number of a vertex. *)
Record validMesh g ixs position : Prop := {
  valid_modern : isGeometry g = false;
  valid_index : index g = Some ixs;
  valid_position : getAttribute "position" (attributes g) = Some position;
  valid_position_size : itemSize position = 3;
  valid_position_length : length (array position) `mod` 3 = 0;
  valid_counts :
    Forall (fun ka => length (array ka.2) = length (array position) / 3 * itemSize ka.2)
      (attributes g);
  valid_normal_size :
    ∀ normal, getAttribute "normal" (attributes g) = Some normal → itemSize normal = 3;
  valid_range : Forall (fun v => v < length (array position) / 3) ixs
}.

End Vocabulary.

(** ** Sample meshes *)

Module Samples.
Import Exact.

(** Two triangles that share the edge between vertices 0 and 1 and meet
    at a right angle; every vertex carries the authored normal (1,0,0). *)
Definition hinge : BufferGeometry num :=
  mesh [2; 0; 1; 0; 3; 1]
    [0; 0; 0;  1; 0; 0;  0; 1; 0;  0; 0; 1]%Z
    (Some [1; 0; 0;  1; 0; 0;  1; 0; 0;  1; 0; 0]%Z).

Definition hingeNormals : list num :=
  computeNormals [2; 0; 1; 0; 3; 1] (ints [0; 0; 0;  1; 0; 0;  0; 1; 0;  0; 0; 1]%Z).

(** The hinge with a fifth vertex no triangle uses. *)
Definition hingeWithSpare : BufferGeometry num :=
  mesh [2; 0; 1; 0; 3; 1]
    [0; 0; 0;  1; 0; 0;  0; 1; 0;  0; 0; 1;  5; 5; 5]%Z None.

(** The hinge whose last corner references vertex 4 of four vertices. *)
Definition hingeOutOfRange : BufferGeometry num :=
  mesh [2; 0; 1; 0; 3; 4]
    [0; 0; 0;  1; 0; 0;  0; 1; 0;  0; 0; 1]%Z None.




(** A legacy [THREE.Geometry], and a [BufferGeometry] without index. *)
Definition legacy : BufferGeometry num := mkGeometry true None [].

Definition soup : BufferGeometry num :=
  mkGeometry false None
    [("position"%string,
      mkAttribute (ints [0; 0; 0;  1; 0; 0;  0; 1; 0]%Z) 3 false);
     ("normal"%string,
      mkAttribute (ints [0; 0; 1;  0; 0; 1;  0; 0; 1]%Z) 3 false)].

End Samples.

(** A stand-in for [mergeVertices] that merges nothing: it gives every
    vertex of a geometry without index its own index. *)
Definition indexEveryVertex (g : BufferGeometry Exact.num) : BufferGeometry Exact.num :=
  match getAttribute "position" (attributes g) with
  | Some position =>
      mkGeometry (isGeometry g)
        (Some (seq 0 (length (array position) / itemSize position))) (attributes g)
  | None => g
  end.

Definition hingeIndexes : list nat := [2; 0; 1; 0; 3; 1].

Definition hingePosition : BufferAttribute Exact.num :=
  mkAttribute (Exact.ints [0; 0; 0;  1; 0; 0;  0; 1; 0;  0; 0; 1]%Z) 3 false.

Definition hingeOldNormals : list Exact.num :=
  Exact.ints [1; 0; 0;  1; 0; 0;  1; 0; 0;  1; 0; 0]%Z.



Definition outOfRangeIndexes : list nat := [2; 0; 1; 0; 3; 4].



(** An indexed geometry without attributes. *)
Definition bare : BufferGeometry Exact.num := mkGeometry false (Some [0; 1; 2]) [].

(** One triangle whose positions hold a tenth number. *)
Definition raggedPosition : BufferAttribute Exact.num :=
  mkAttribute (Exact.ints [0; 0; 0;  1; 0; 0;  0; 1; 0;  7]%Z) 3 false.

Definition ragged : BufferGeometry Exact.num :=
  mkGeometry false (Some [0; 1; 2]) [("position"%string, raggedPosition)].

(** The hinge with texture coordinates for seven vertices. *)
Definition longUv : BufferAttribute Exact.num :=
  mkAttribute (Exact.ints [0; 0;  1; 0;  0; 1;  1; 1;  0; 0;  0; 0;  0; 0]%Z) 2 false.

Definition hingeWithLongUv : BufferGeometry Exact.num :=
  mkGeometry false (Some hingeIndexes)
    [("position"%string, hingePosition); ("uv"%string, longUv)].

(** The hinge with thirteen numbers for normals. *)
Definition raggedNormal : BufferAttribute Exact.num :=
  mkAttribute (Exact.ints [1; 0; 0;  1; 0; 0;  1; 0; 0;  1; 0; 0;  1]%Z) 3 false.

Definition hingeWithRaggedNormals : BufferGeometry Exact.num :=
  mkGeometry false (Some hingeIndexes)
    [("position"%string, hingePosition); ("normal"%string, raggedNormal)].

(** One triangle without index and without normals. *)
Definition loose : BufferGeometry Exact.num :=
  mkGeometry false None
    [("position"%string,
      mkAttribute (Exact.ints [0; 0; 0;  1; 0; 0;  0; 1; 0]%Z) 3 false)].

(** The entries of the hinge at a [cutOffAngle] of one radian. *)
Definition hingeSplits : list Split := [mkSplit 1 [3]; mkSplit 2 [5]].

(** ** Plain arrays: reads after writes *)

Section Arrays.
Context {A : Type}.
Implicit Types (a : list (option A)) (i j : nat) (x : A).

Lemma length_arraySet a i x : length (arraySet a i x) = length a `max` S i.
Proof.
  unfold arraySet. case_decide.
  - rewrite length_insert. lia.
  - rewrite !length_app, length_replicate. simpl. lia.
Qed.

Lemma arrayGet_arraySet_eq a i x : arrayGet (arraySet a i x) i = Some x.
Proof.
  unfold arrayGet, arraySet. case_decide.
  - by rewrite list_lookup_insert_eq.
  - rewrite lookup_app_r by lia.
    rewrite lookup_app_r by (rewrite length_replicate; lia).
    rewrite length_replicate, Nat.sub_diag. done.
Qed.

Lemma arrayGet_arraySet_ne a i j x : i ≠ j → arrayGet (arraySet a i x) j = arrayGet a j.
Proof.
  intros Hne. unfold arrayGet, arraySet. case_decide.
  - by rewrite list_lookup_insert_ne.
  - destruct (decide (j < length a)) as [Hj|Hj].
    + by rewrite lookup_app_l.
    + rewrite (lookup_ge_None_2 a j) by lia.
      rewrite lookup_app_r by lia.
      destruct (decide (j - length a < i - length a)) as [Hlt|Hge].
      * rewrite lookup_app_l by (rewrite length_replicate; lia).
        rewrite lookup_replicate_2 by lia. done.
      * rewrite lookup_app_r by (rewrite length_replicate; lia).
        rewrite length_replicate.
        rewrite lookup_ge_None_2; [done|]. simpl. lia.
Qed.

Lemma arrayGet_replicate_None n j : arrayGet (replicate n (@None A)) j = None.
Proof.
  unfold arrayGet. destruct (replicate n None !! j) as [o|] eqn:E; [|done].
  apply lookup_replicate in E as [-> _]. done.
Qed.

Lemma arrayGet_Some_lt a j x : arrayGet a j = Some x → j < length a.
Proof.
  unfold arrayGet. intros E. destruct (a !! j) eqn:E'; [|done].
  by eapply lookup_lt_Some.
Qed.

(** A hole inside the array. *)
Lemma arrayGet_None_hole a j : j < length a → arrayGet a j = None → a !! j = Some None.
Proof.
  unfold arrayGet. intros Hj E.
  destruct (lookup_lt_is_Some_2 a j Hj) as [[y|] Hy]; rewrite Hy in E |- *; done.
Qed.

End Arrays.

(** ** The corner index *)

Lemma filter_ext_in {A} (P1 P2 : A → Prop)
    `{!∀ x, Decision (P1 x), !∀ x, Decision (P2 x)} (l : list A) :
  (∀ x, x ∈ l → P1 x ↔ P2 x) → filter P1 l = filter P2 l.
Proof.
  induction l as [|a l IH]; [done|]. intros Hiff.
  rewrite !filter_cons.
  rewrite IH by (intros; apply Hiff; by right).
  apply decide_ext, Hiff. left.
Qed.

Lemma elem_of_cornersOf (l : list nat) v i : i ∈ cornersOf l v ↔ l !! i = Some v.
Proof.
  unfold cornersOf. rewrite list_elem_of_filter, elem_of_seq. split; [tauto|].
  intros E. split; [done|]. apply lookup_lt_Some in E. lia.
Qed.

Lemma NoDup_cornersOf (l : list nat) v : NoDup (cornersOf l v).
Proof. apply NoDup_filter, NoDup_seq. Qed.

Lemma cornersOf_snoc (l : list nat) x v :
  cornersOf (l ++ [x]) v = cornersOf l v ++ (if decide (x = v) then [length l] else []).
Proof.
  unfold cornersOf.
  rewrite length_app, Nat.add_1_r, seq_S, filter_app. simpl. f_equal.
  - apply filter_ext_in. intros i Hi.
    apply elem_of_seq in Hi. rewrite lookup_app_l by lia. done.
  - rewrite filter_cons, filter_nil.
    rewrite lookup_app_r by lia. rewrite Nat.sub_diag. simpl.
    repeat case_decide; congruence.
Qed.

Lemma cornersOf_nil_iff (l : list nat) v : cornersOf l v = [] ↔ v ∉ l.
Proof.
  split.
  - intros E Hin. apply list_elem_of_lookup in Hin as [i Hi].
    apply elem_of_cornersOf in Hi. rewrite E in Hi. by apply elem_of_nil in Hi.
  - intros Hnin. destruct (cornersOf l v) as [|i r] eqn:E; [done|].
    exfalso. apply Hnin. assert (i ∈ cornersOf l v) as Hi by (rewrite E; left).
    apply elem_of_cornersOf in Hi. by eapply list_elem_of_lookup_2.
Qed.

Lemma mapPositionsToIndexes_snoc (l : list nat) x n :
  mapPositionsToIndexes (l ++ [x]) n
  = mapPositionsToIndexesStep (mapPositionsToIndexes l n) (length l, x).
Proof.
  unfold mapPositionsToIndexes.
  rewrite length_app, Nat.add_1_r, seq_S.
  rewrite zip_with_app by (by rewrite length_seq).
  rewrite fold_left_app. done.
Qed.

(** What [mapPositionsToIndexes] leaves at [v]: the corners of [v], or a
    hole when there is none. *)
Lemma mapPositionsToIndexes_get (l : list nat) n v :
  arrayGet (mapPositionsToIndexes l n) v
  = if decide (cornersOf l v = []) then None else Some (cornersOf l v).
Proof.
  induction l as [|x l IH] using rev_ind.
  - unfold mapPositionsToIndexes. simpl. apply arrayGet_replicate_None.
  - rewrite mapPositionsToIndexes_snoc, cornersOf_snoc.
    unfold mapPositionsToIndexesStep.
    destruct (decide (x = v)) as [->|Hne].
    + rewrite arrayGet_arraySet_eq, IH.
      case_decide as E1; [rewrite E1|]; case_decide as E2; try done.
      by apply app_eq_nil in E2 as [_ ?].
    + rewrite arrayGet_arraySet_ne by done. rewrite IH, app_nil_r. done.
Qed.

Lemma mapPositionsToIndexes_length (l : list nat) n :
  n ≤ length (mapPositionsToIndexes l n).
Proof.
  induction l as [|x l IH] using rev_ind.
  - unfold mapPositionsToIndexes. simpl. by rewrite length_replicate.
  - rewrite mapPositionsToIndexes_snoc. unfold mapPositionsToIndexesStep.
    rewrite length_arraySet. lia.
Qed.

(** A cell of the corner index is a hole or the corner list of its vertex. *)
Lemma mapPositionsToIndexes_lookup (l : list nat) n v cell :
  mapPositionsToIndexes l n !! v = Some (Some cell) → cell = cornersOf l v ∧ v ∈ l.
Proof.
  intros E. pose proof (mapPositionsToIndexes_get l n v) as G.
  unfold arrayGet in G. rewrite E in G. simpl in G.
  case_decide as Hc; [done|]. split; [congruence|].
  destruct (decide (v ∈ l)) as [|Hn]; [done|]. by apply cornersOf_nil_iff in Hn.
Qed.

Lemma mapPositionsToIndexes_hole (l : list nat) n v :
  v < n → v ∉ l → mapPositionsToIndexes l n !! v = Some None.
Proof.
  intros Hv Hn. apply arrayGet_None_hole.
  - pose proof (mapPositionsToIndexes_length l n). lia.
  - rewrite mapPositionsToIndexes_get. apply cornersOf_nil_iff in Hn.
    by rewrite decide_True.
Qed.

(** ** The group partitioner *)

Section Partitioner.
Context {num : Type} `{FloatOps num}.
Implicit Types (normals : list num) (cutOff : num) (L : list nat) (seed j : nat).

Lemma edgeSplitToGroups_fold normals cutOff seed L r :
  fold_left (edgeSplitToGroupsStep normals cutOff seed (normalAt normals seed)) L r
  = mkGroupResult
      (splitGroup r ++ filter (fun j => j ≠ seed ∧ ¬ compatible normals cutOff seed j) L)
      (currentGroup r ++ filter (fun j => j ≠ seed ∧ compatible normals cutOff seed j) L).
Proof.
  revert r. induction L as [|j L IH]; intros r.
  - simpl. rewrite !filter_nil, !app_nil_r. by destruct r.
  - simpl. rewrite IH. rewrite !filter_cons. unfold edgeSplitToGroupsStep.
    destruct (decide (j ≠ seed)) as [Hj|Hj].
    + destruct (flt (vdot (normalAt normals j) (normalAt normals seed)) cutOff) eqn:E.
      * rewrite decide_True by (unfold compatible; split; [done|congruence]).
        rewrite decide_False by (unfold compatible; intros [_ ?]; congruence).
        simpl. by rewrite <- app_assoc.
      * rewrite decide_False by (unfold compatible; intros [_ ?]; congruence).
        rewrite decide_True by (unfold compatible; split; [done|congruence]).
        simpl. by rewrite <- app_assoc.
    + rewrite !decide_False by tauto. done.
Qed.

(** The trial partition of a seed, in closed form. *)
Lemma edgeSplitToGroups_eq normals cutOff seed L :
  edgeSplitToGroups normals L cutOff seed
  = mkGroupResult
      (filter (fun j => j ≠ seed ∧ ¬ compatible normals cutOff seed j) L)
      (seed :: filter (fun j => j ≠ seed ∧ compatible normals cutOff seed j) L).
Proof. unfold edgeSplitToGroups. by rewrite edgeSplitToGroups_fold. Qed.

Lemma splitGroup_shorter normals cutOff seed L :
  seed ∈ L → length (splitGroup (edgeSplitToGroups normals L cutOff seed)) < length L.
Proof.
  intros Hin. rewrite edgeSplitToGroups_eq. simpl.
  eapply length_filter_lt; [exact Hin|]. tauto.
Qed.

Lemma currentGroup_subseteq normals cutOff seed L :
  seed ∈ L → currentGroup (edgeSplitToGroups normals L cutOff seed) ⊆ L.
Proof.
  intros Hin j. rewrite edgeSplitToGroups_eq. simpl.
  rewrite elem_of_cons, list_elem_of_filter. intros [->|[_ ?]]; done.
Qed.

Lemma splitGroup_subseteq normals cutOff seed L :
  splitGroup (edgeSplitToGroups normals L cutOff seed) ⊆ L.
Proof.
  intros j. rewrite edgeSplitToGroups_eq. simpl.
  rewrite list_elem_of_filter. by intros [_ ?].
Qed.

(** The scan of [largestGroup] returns the first candidate, counted from
    [first], that no other candidate beats. *)
Lemma largestGroup_spec first candidates :
  ∃ k, (first :: candidates) !! k = Some (largestGroup first candidates)
     ∧ (∀ k' c, (first :: candidates) !! k' = Some c →
          length (currentGroup c) ≤ length (currentGroup (largestGroup first candidates)))
     ∧ (∀ k' c, k' < k → (first :: candidates) !! k' = Some c →
          length (currentGroup c) < length (currentGroup (largestGroup first candidates))).
Proof.
  induction candidates as [|c cs IH] using rev_ind.
  - exists 0. simpl. split; [done|]. split.
    + intros [|k'] c E; simpl in E; [by inversion E|done].
    + intros k' c Hlt. lia.
  - destruct IH as (k & Hk & Hmax & Hfirst).
    unfold largestGroup in *. rewrite fold_left_app. simpl.
    set (r := fold_left _ cs first) in *.
    case_decide as Hc.
    + exists (S (length cs)). split.
      { change (first :: cs ++ [c]) with ((first :: cs) ++ [c]).
        rewrite lookup_app_r by (simpl; lia). simpl. by rewrite Nat.sub_diag. }
      assert (∀ k' c', k' < S (length cs) → (first :: cs ++ [c]) !! k' = Some c' →
                length (currentGroup c') < length (currentGroup c)) as Hbelow.
      { intros k' c' Hlt E.
        change (first :: cs ++ [c]) with ((first :: cs) ++ [c]) in E.
        rewrite lookup_app_l in E by (simpl; lia).
        specialize (Hmax _ _ E). lia. }
      split; [|exact Hbelow].
      intros k' c' E. destruct (decide (k' < S (length cs))) as [Hlt|Hge].
      * specialize (Hbelow _ _ Hlt E). lia.
      * change (first :: cs ++ [c]) with ((first :: cs) ++ [c]) in E.
        rewrite lookup_app_r in E by (simpl; lia).
        apply list_lookup_singleton_Some in E as [_ <-]. lia.
    + exists k. split.
      { change (first :: cs ++ [c]) with ((first :: cs) ++ [c]).
        apply lookup_app_l_Some. exact Hk. }
      split.
      * intros k' c' E.
        change (first :: cs ++ [c]) with ((first :: cs) ++ [c]) in E.
        apply lookup_app_Some in E as [E|[_ E]]; [by eapply Hmax|].
        apply list_lookup_singleton_Some in E as [_ <-]. lia.
      * intros k' c' Hlt E. apply (Hfirst k' c' Hlt).
        change (first :: cs ++ [c]) with ((first :: cs) ++ [c]) in E.
        apply lookup_lt_Some in Hk. simpl in Hk.
        rewrite lookup_app_l in E by (simpl; lia). done.
Qed.

(** The group [edgeSplit] keeps is the trial partition of the first corner
    of the list, in list order, whose [currentGroup] is as long as any. *)
Lemma selectGroup_spec normals cutOff index0 L :
  let result := selectGroup normals (index0 :: L) cutOff index0 in
  ∃ k seed,
    (index0 :: L) !! k = Some seed
    ∧ result = edgeSplitToGroups normals (index0 :: L) cutOff seed
    ∧ (∀ k' c, (index0 :: L) !! k' = Some c →
         length (currentGroup (edgeSplitToGroups normals (index0 :: L) cutOff c))
         ≤ length (currentGroup result))
    ∧ (∀ k' c, k' < k → (index0 :: L) !! k' = Some c →
         length (currentGroup (edgeSplitToGroups normals (index0 :: L) cutOff c))
         < length (currentGroup result)).
Proof.
  intros result. unfold selectGroup, groupResults in result.
  set (f := edgeSplitToGroups normals (index0 :: L) cutOff) in *.
  destruct (largestGroup_spec (f index0) (map f (index0 :: L)))
    as (k & Hk & Hmax & Hfirst).
  fold result in Hk, Hmax, Hfirst.
  assert (∀ k' c, (index0 :: L) !! k' = Some c →
            length (currentGroup (f c)) ≤ length (currentGroup result)) as Hmax'.
  { intros k' c E. apply (Hmax (S k')). simpl.
    change (f index0 :: map f L) with (f <$> index0 :: L).
    by rewrite list_lookup_fmap, E. }
  destruct k as [|[|k]].
  - exists 0, index0. simpl in Hk. inversion Hk as [Hr].
    split; [done|]. split; [done|]. split; [rewrite Hr; exact Hmax'|].
    intros k' c Hlt. lia.
  - exfalso. specialize (Hfirst 0 (f index0)). simpl in Hfirst, Hk.
    inversion Hk as [Hr]. rewrite <- Hr in Hfirst.
    specialize (Hfirst ltac:(lia) eq_refl). lia.
  - simpl in Hk. change (map f L) with (f <$> L) in Hk.
    rewrite list_lookup_fmap in Hk.
    destruct (L !! k) as [seed|] eqn:E; [|done]. simpl in Hk. inversion Hk as [Hr].
    exists (S k), seed. split; [done|]. split; [done|].
    split; [rewrite Hr; exact Hmax'|].
    intros k' c Hlt Ec. rewrite Hr. apply (Hfirst (S k') (f c)); [lia|].
    simpl. change (f index0 :: map f L) with (f <$> index0 :: L).
    by rewrite list_lookup_fmap, Ec.
Qed.

Lemma selectGroup_seed normals cutOff index0 L :
  ∃ seed, seed ∈ index0 :: L
    ∧ selectGroup normals (index0 :: L) cutOff index0
      = edgeSplitToGroups normals (index0 :: L) cutOff seed.
Proof.
  destruct (selectGroup_spec normals cutOff index0 L) as (k & seed & Hk & Hr & _).
  exists seed. split; [by eapply list_elem_of_lookup_2|done].
Qed.

Lemma selectGroup_shorter normals cutOff index0 L :
  length (splitGroup (selectGroup normals (index0 :: L) cutOff index0))
  < length (index0 :: L).
Proof.
  destruct (selectGroup_seed normals cutOff index0 L) as (seed & Hin & ->).
  by apply splitGroup_shorter.
Qed.

(** *** The recursion of [edgeSplit] *)

Lemma edgeSplit_is_Some fuel normals cutOff L original :
  length L ≤ fuel → is_Some (edgeSplit fuel normals L cutOff original).
Proof.
  revert L original. induction fuel as [|fuel IH]; intros [|index0 L] original Hlen;
    simpl in *; try done; try lia.
  destruct (splitGroup _) as [|j sg] eqn:E; [done|].
  pose proof (selectGroup_shorter normals cutOff index0 L) as Hlt. rewrite E in Hlt.
  destruct (IH (j :: sg) (Some (orElse original
              (default 0 (head (currentGroup (selectGroup normals (index0 :: L) cutOff index0)))))))
    as [rest ->]; [simpl in *; lia|].
  done.
Qed.

(** More fuel than the length of the list changes nothing. *)
Lemma edgeSplit_fuel fuel fuel' normals cutOff L original r :
  edgeSplit fuel normals L cutOff original = Some r → fuel ≤ fuel' →
  edgeSplit fuel' normals L cutOff original = Some r.
Proof.
  revert fuel' L original r.
  induction fuel as [|fuel IH]; intros fuel' [|index0 L] original r E Hle;
    try (by destruct fuel'); simpl in E; try done.
  destruct fuel' as [|fuel']; [lia|]. simpl.
  destruct (splitGroup _) as [|j sg]; [done|].
  destruct (edgeSplit fuel _ _ _ _) as [rest|] eqn:Er; [|done].
  rewrite (IH fuel' _ _ _ Er) by lia. done.
Qed.

Lemma edgeSplit_length_Some fuel normals cutOff L o r :
  edgeSplit fuel normals L cutOff (Some o) = Some r → length r ≤ length L.
Proof.
  revert L o r. induction fuel as [|fuel IH]; intros [|index0 L] o r E;
    simpl in E; try done; try (injection E as <-; simpl; lia).
  pose proof (selectGroup_shorter normals cutOff index0 L) as Hlt.
  destruct (splitGroup _) as [|j sg]; [injection E as <-; simpl; lia|].
  destruct (edgeSplit fuel _ _ _ _) as [rest|] eqn:Er; [|done].
  injection E as <-. apply IH in Er. simpl in *. lia.
Qed.

Lemma edgeSplit_length_None fuel normals cutOff index0 L r :
  edgeSplit fuel normals (index0 :: L) cutOff None = Some r →
  S (length r) ≤ length (index0 :: L).
Proof.
  destruct fuel as [|fuel]; simpl; [done|].
  pose proof (selectGroup_shorter normals cutOff index0 L) as Hlt.
  destruct (splitGroup _) as [|j sg]; [intros [= <-]; simpl; lia|].
  destruct (edgeSplit fuel _ _ _ _) as [rest|] eqn:Er; [|done].
  intros [= <-]. apply edgeSplit_length_Some in Er. simpl in *. lia.
Qed.

(** The entries [edgeSplit] pushes are the groups of the recursion, all
    of them when it is entered with an [original], all but the first
    when it is entered without. *)
Lemma edgeSplit_groups fuel normals cutOff L original r :
  edgeSplit fuel normals L cutOff original = Some r →
  map indexes r
  = match original with
    | Some _ => edgeSplitGroups fuel normals L cutOff
    | None => tail (edgeSplitGroups fuel normals L cutOff)
    end.
Proof.
  revert L original r. induction fuel as [|fuel IH]; intros [|index0 L] original r E;
    simpl in E; try done; try (injection E as <-; by destruct original).
  simpl. destruct (splitGroup _) as [|j sg] eqn:Esg.
  - injection E as <-. destruct original; simpl; by destruct fuel.
  - destruct (edgeSplit fuel _ _ _ _) as [rest|] eqn:Er; [|done].
    injection E as <-. apply IH in Er. rewrite map_app, Er.
    by destruct original.
Qed.

(** Every entry pushed for the corner list [L] holds corners of [L], and
    its [original] is a corner of [L] or the [original] handed in. *)
Lemma edgeSplit_corners fuel normals cutOff L o r split :
  edgeSplit fuel normals L cutOff o = Some r → split ∈ r →
  indexes split ⊆ L ∧ (original split ∈ L ∨ o = Some (original split)).
Proof.
  revert L o r. induction fuel as [|fuel IH]; intros [|index0 L] o r E Hin;
    simpl in E; try done; try (injection E as <-; by apply elem_of_nil in Hin).
  destruct (selectGroup_seed normals cutOff index0 L) as (seed & Hseed & Hsel).
  rewrite Hsel in E.
  assert (split ∈ match o with
                  | Some o' => [mkSplit o'
                      (currentGroup (edgeSplitToGroups normals (index0 :: L) cutOff seed))]
                  | None => []
                  end →
          indexes split ⊆ index0 :: L
          ∧ (original split ∈ index0 :: L ∨ o = Some (original split))) as Hpushed.
  { destruct o as [o'|]; [|by intros ?%elem_of_nil].
    intros ->%list_elem_of_singleton. simpl. split; [|by right].
    by apply currentGroup_subseteq. }
  destruct (splitGroup _) as [|j sg] eqn:Esg; [injection E as <-; auto|].
  destruct (edgeSplit fuel _ _ _ _) as [rest|] eqn:Er; [|done].
  injection E as <-. apply elem_of_app in Hin as [Hin|Hin]; [auto|].
  destruct (IH _ _ _ Er Hin) as [Hsub Horig].
  pose proof (splitGroup_subseteq normals cutOff seed (index0 :: L)) as Hsg.
  rewrite Esg in Hsg. split; [intros x Hx; apply Hsg, Hsub, Hx|].
  destruct Horig as [Horig|Horig]; [left; apply Hsg, Horig|].
  injection Horig as Horig. rewrite <- Horig.
  rewrite edgeSplitToGroups_eq. simpl.
  destruct o as [[|o']|]; simpl; auto.
Qed.

End Partitioner.

(** ** The loop over the corner index *)

Section SplitAll.
Context {num : Type} `{FloatOps num}.
Implicit Types (normals : list num) (cutOff : num) (m : list (option (list nat))).

(** With every cell filled the loop ends and yields its entries. *)
Lemma splitAll_inr normals cutOff m :
  Forall is_Some m → ∃ splits, splitAll normals cutOff m = inr splits.
Proof.
  induction 1 as [|cell m [L ->] _ [splits IH]]; simpl; [by eexists|].
  destruct (edgeSplit_is_Some (length L) normals cutOff L None) as [pushed ->]; [done|].
  rewrite IH. by eexists.
Qed.

(** A hole anywhere makes the loop throw. *)
Lemma splitAll_hole normals cutOff m v :
  m !! v = Some None → splitAll normals cutOff m = inl TypeError.
Proof.
  revert v. induction m as [|cell m IH]; intros v E; [done|].
  destruct cell as [L|]; [|done]. simpl.
  destruct (edgeSplit_is_Some (length L) normals cutOff L None) as [pushed ->]; [done|].
  destruct v as [|v]; [done|]. simpl in E. by rewrite (IH v E).
Qed.

(** The only way the loop fails is a hole. *)
Lemma splitAll_inl normals cutOff m e :
  splitAll normals cutOff m = inl e → e = TypeError ∧ ∃ v, m !! v = Some None.
Proof.
  induction m as [|cell m IH]; [done|]. destruct cell as [L|]; simpl.
  - destruct (edgeSplit_is_Some (length L) normals cutOff L None) as [pushed ->]; [done|].
    destruct (splitAll normals cutOff m) as [e'|more]; [|done].
    intros [= <-]. destruct (IH eq_refl) as [-> [v Hv]]. split; [done|]. by exists (S v).
  - intros [= <-]. split; [done|]. by exists 0.
Qed.

(** Every entry comes from one cell: its corners and its [original] are
    corners of that cell. *)
Lemma splitAll_corners normals cutOff m splits split :
  splitAll normals cutOff m = inr splits → split ∈ splits →
  ∃ v L, m !! v = Some (Some L) ∧ indexes split ⊆ L ∧ original split ∈ L.
Proof.
  revert splits. induction m as [|cell m IH]; intros splits E Hin.
  - injection E as <-. by apply elem_of_nil in Hin.
  - destruct cell as [L|]; [|done]. simpl in E.
    destruct (edgeSplit _ _ _ _ _) as [pushed|] eqn:Ep; [|done].
    destruct (splitAll normals cutOff m) as [e'|more]; [done|].
    injection E as <-. apply elem_of_app in Hin as [Hin|Hin].
    + destruct (edgeSplit_corners _ _ _ _ _ _ _ Ep Hin) as [Hsub [Ho|Ho]]; [|done].
      by exists 0, L.
    + destruct (IH more eq_refl Hin) as (v & L' & Hv & Hsub & Ho).
      by exists (S v), L'.
Qed.

(** On the corner index of an index buffer: the corners of an entry and
    its [original] all reference one vertex. *)
Lemma splitAll_vertex normals cutOff (l : list nat) n splits split :
  splitAll normals cutOff (mapPositionsToIndexes l n) = inr splits → split ∈ splits →
  ∃ v, l !! original split = Some v ∧ ∀ s, s ∈ indexes split → l !! s = Some v.
Proof.
  intros E Hin. destruct (splitAll_corners _ _ _ _ _ E Hin) as (v & L & Hv & Hsub & Ho).
  apply mapPositionsToIndexes_lookup in Hv as [-> _]. exists v. split.
  - by apply elem_of_cornersOf.
  - intros s Hs. by apply elem_of_cornersOf, Hsub.
Qed.

(** The loop succeeds exactly when the corner index has no hole. *)
Lemma mapPositionsToIndexes_full (l : list nat) n :
  (∀ v, v < n → v ∈ l) → (∀ v w, w ∈ l → v < w → v ∈ l) →
  Forall is_Some (mapPositionsToIndexes l n).
Proof.
  intros Hlow Hdown. apply Forall_lookup. intros v cell E.
  destruct cell as [L|]; [done|]. exfalso.
  pose proof (mapPositionsToIndexes_get l n v) as G.
  unfold arrayGet in G. rewrite E in G. simpl in G.
  case_decide as Hc; [|done]. apply cornersOf_nil_iff in Hc. apply Hc.
  destruct (decide (v < n)) as [|Hge]; [by apply Hlow|].
  (* a cell past the initial length exists only below a referenced vertex *)
  assert (∃ w, w ∈ l ∧ v ≤ w) as (w & Hw & Hle).
  { clear G Hc Hlow Hdown. apply lookup_lt_Some in E. revert E.
    induction l as [|x l IH] using rev_ind.
    - unfold mapPositionsToIndexes. simpl. rewrite length_replicate. lia.
    - rewrite mapPositionsToIndexes_snoc. unfold mapPositionsToIndexesStep.
      rewrite length_arraySet. intros Hlt.
      destruct (decide (v < length (mapPositionsToIndexes l n))) as [Hv|Hv].
      + destruct (IH Hv) as (w & Hw & Hle). exists w. split; [|done].
        apply elem_of_app. by left.
      + exists x. split; [|lia]. apply elem_of_app. right. left. }
  destruct (decide (v = w)) as [->|]; [done|]. apply (Hdown v w); [done|lia].
Qed.

End SplitAll.

(** ** The rebuilt buffers *)

Section Buffers.
Context {num : Type} `{FloatOps num}.
Implicit Types (a : list num) (attribute : BufferAttribute num).

(** Writing one value at each slot of a group. *)
Lemma redirect_lookup (group : list nat) (x : nat) (l : list nat) s :
  fold_left (fun l j => <[j := x]> l) group l !! s
  = if decide (s ∈ group ∧ s < length l) then Some x else l !! s.
Proof.
  revert l. induction group as [|j group IH]; intros l; cbn [fold_left].
  - rewrite decide_False; [done|]. intros [?%elem_of_nil _]. done.
  - rewrite IH, length_insert, list_lookup_insert.
    repeat case_decide; try done; exfalso;
      repeat match goal with
             | H : _ ∧ _ |- _ => destruct H
             | H : ¬ (_ ∧ _) |- _ => apply not_and_l in H as [?|?]
             | H : _ ∈ _ :: _ |- _ => apply elem_of_cons in H as [?|?]
             | H : ¬ (_ ∈ _ :: _) |- _ => rewrite elem_of_cons in H
             end; subst; try tauto; try lia.
Qed.

Lemma redirect_length (group : list nat) (x : nat) (l : list nat) :
  length (fold_left (fun l j => <[j := x]> l) group l) = length l.
Proof.
  revert l. induction group as [|j group IH]; intros l; simpl; [done|].
  by rewrite IH, length_insert.
Qed.

Lemma applySplits_attributes (l : list nat) old i splits attrs (newIndexes : list nat) :
  (applySplits l old i splits attrs newIndexes).1
  = map (fun ka => (ka.1, copyAll l old i splits ka.2)) attrs.
Proof.
  revert i attrs newIndexes. induction splits as [|[o g] splits IH];
    intros i attrs newIndexes; simpl.
  - induction attrs as [|[k a] attrs IHa]; simpl; [done|]. by rewrite <- IHa.
  - rewrite IH, map_map. done.
Qed.

(** The index buffer after the loop: a slot keeps its value unless it
    belongs to an entry, whose new vertex it then references. *)
Lemma applySplits_indexes (l : list nat) old i splits attrs (newIndexes : list nat) s :
  s < length newIndexes →
  let out := (applySplits l old i splits attrs newIndexes).2 in
  (out !! s = newIndexes !! s ∧ ∀ split, split ∈ splits → s ∉ indexes split)
  ∨ (∃ p split, splits !! p = Some split ∧ s ∈ indexes split
              ∧ out !! s = Some (wrap32 (old + i + p))).
Proof.
  revert i attrs newIndexes. induction splits as [|[o g] splits IH];
    intros i attrs newIndexes Hs; simpl.
  - left. split; [done|]. by intros split ?%elem_of_nil.
  - match goal with
    | |- context [applySplits l old (S i) splits ?a ?n] =>
        destruct (IH (S i) a n) as [[E Hnot]|(p & split & Hp & Hin & E)]
    end.
    { rewrite redirect_length. exact Hs. }
    + rewrite redirect_lookup in E. case_decide as Hin.
      * right. exists 0, (mkSplit o g). simpl. rewrite Nat.add_0_r.
        split; [done|]. split; [tauto|exact E].
      * left. split; [exact E|]. intros split [->|Hin']%elem_of_cons; [|by apply Hnot].
        simpl. tauto.
    + right. exists (S p), split. simpl. split; [done|]. split; [done|].
      rewrite E. f_equal. f_equal. lia.
Qed.

Lemma applySplits_length (l : list nat) old i splits attrs (newIndexes : list nat) :
  length (applySplits l old i splits attrs newIndexes).2 = length newIndexes.
Proof.
  revert i attrs newIndexes. induction splits as [|[o g] splits IH];
    intros i attrs newIndexes; simpl; [done|].
  by rewrite IH, redirect_length.
Qed.

End Buffers.

(** ** Copies of vertices *)

Section Copies.
Context {num : Type} `{FloatOps num}.
Implicit Types (a : list num) (attribute : BufferAttribute num).

(** Writes at the slots of vertex [t] leave every other slot alone. *)
Lemma vertex_fold_outside (g : list num → nat → num) (t sz n : nat) a :
  let r := fold_left (fun a j => <[t * sz + j := g a j]> a) (seq 0 n) a in
  length r = length a ∧ ∀ k, k < t * sz ∨ t * sz + n ≤ k → r !! k = a !! k.
Proof.
  cbv zeta. induction n as [|n [IHlen IH]]; [done|].
  rewrite seq_S, fold_left_app. cbn [fold_left]. rewrite length_insert. split; [done|].
  intros k Hk. rewrite list_lookup_insert_ne by lia. apply IH. lia.
Qed.

Lemma vertex_fold_copy (ix t sz n : nat) a :
  ix * sz + n ≤ t * sz →
  let r := fold_left (fun a j => <[t * sz + j := rd a (ix * sz + j)]> a) (seq 0 n) a in
  ∀ j, j < n → t * sz + j < length a → r !! (t * sz + j) = Some (rd a (ix * sz + j)).
Proof.
  cbv zeta. induction n as [|n IH]; intros Hle; [lia|].
  rewrite seq_S, fold_left_app. cbn [fold_left]. intros j Hj Hlen.
  destruct (vertex_fold_outside (fun a j => rd a (ix * sz + j)) t sz n a) as [Hl Hout].
  destruct (decide (j = n)) as [->|Hne].
  - rewrite list_lookup_insert_eq by lia. f_equal. unfold rd.
    rewrite Hout by lia. done.
  - rewrite list_lookup_insert_ne by lia. apply IH; lia.
Qed.

Lemma copyVertex_itemSize index target attribute :
  itemSize (copyVertex index target attribute) = itemSize attribute.
Proof. done. Qed.

Lemma copyVertex_length index target attribute :
  length (array (copyVertex index target attribute)) = length (array attribute).
Proof.
  unfold copyVertex. simpl.
  apply (vertex_fold_outside
           (fun a j => match index with
                       | Some index => rd a (index * itemSize attribute + j)
                       | None => nan
                       end)).
Qed.

Lemma copyVertex_outside index target attribute k :
  k < target * itemSize attribute ∨ target * itemSize attribute + itemSize attribute ≤ k →
  array (copyVertex index target attribute) !! k = array attribute !! k.
Proof.
  unfold copyVertex. simpl.
  apply (vertex_fold_outside
           (fun a j => match index with
                       | Some index => rd a (index * itemSize attribute + j)
                       | None => nan
                       end)).
Qed.

Lemma copyVertex_copy ix target attribute j :
  ix < target → j < itemSize attribute →
  target * itemSize attribute + j < length (array attribute) →
  array (copyVertex (Some ix) target attribute) !! (target * itemSize attribute + j)
  = Some (rd (array attribute) (ix * itemSize attribute + j)).
Proof.
  intros Hix Hj Hlen. unfold copyVertex. simpl.
  apply (vertex_fold_copy ix target (itemSize attribute)); [nia|done|done].
Qed.

Lemma copyAll_itemSize (l : list nat) old i splits attribute :
  itemSize (copyAll l old i splits attribute) = itemSize attribute
  ∧ normalized (copyAll l old i splits attribute) = normalized attribute
  ∧ length (array (copyAll l old i splits attribute)) = length (array attribute).
Proof.
  revert i attribute. induction splits as [|[o g] splits IH]; intros i attribute; simpl;
    [done|].
  destruct (IH (S i) (copyVertex (l !! o) (old + i) attribute)) as (-> & -> & ->).
  by rewrite copyVertex_length.
Qed.

(** The loop writes to new vertices only. *)
Lemma copyAll_below (l : list nat) old i splits attribute k :
  k < (old + i) * itemSize attribute →
  array (copyAll l old i splits attribute) !! k = array attribute !! k.
Proof.
  revert i attribute. induction splits as [|[o g] splits IH]; intros i attribute Hk; simpl;
    [done|].
  rewrite IH by (rewrite copyVertex_itemSize; nia).
  apply copyVertex_outside. by left.
Qed.

(** The new vertex of the [p]-th entry is a copy of the vertex its
    [original] references. *)
Lemma copyAll_copy (l : list nat) old i splits attribute p split ix j :
  splits !! p = Some split → l !! original split = Some ix → ix < old →
  j < itemSize attribute →
  (old + i + p) * itemSize attribute + j < length (array attribute) →
  array (copyAll l old i splits attribute) !! ((old + i + p) * itemSize attribute + j)
  = Some (rd (array attribute) (ix * itemSize attribute + j)).
Proof.
  revert i attribute p. induction splits as [|[o g] splits IH];
    intros i attribute p Hp Hix Hold Hj Hlen; [done|].
  destruct p as [|p]; simpl in Hp |- *.
  - injection Hp as <-. simpl in Hix. rewrite Hix.
    rewrite copyAll_below by (rewrite copyVertex_itemSize; nia).
    rewrite Nat.add_0_r. apply copyVertex_copy; [lia|done|].
    by rewrite Nat.add_0_r in Hlen.
  - replace (old + i + S p) with (old + S i + p) in * by lia.
    rewrite <- (copyVertex_itemSize (l !! o) (old + i) attribute) at 1.
    rewrite (IH (S i) _ p Hp Hix Hold);
      [|by rewrite copyVertex_itemSize
       |by rewrite copyVertex_itemSize, copyVertex_length].
    f_equal. rewrite copyVertex_itemSize. unfold rd.
    rewrite copyVertex_outside by (left; nia). done.
Qed.

(** *** The attribute dictionary *)

Lemma newAttributesOf_Some n (attrs : list (string * BufferAttribute num)) :
  Forall (fun ka => length (array ka.2) ≤ n * itemSize ka.2) attrs →
  newAttributesOf n attrs = Some (map (fun ka => (ka.1, grown n ka.2)) attrs).
Proof.
  induction 1 as [|[k a] attrs Hk _ IH]; simpl; [done|].
  unfold growArray. rewrite decide_True by done. simpl. rewrite IH. done.
Qed.

Lemma newAttributesOf_inv n (attrs new : list (string * BufferAttribute num)) :
  newAttributesOf n attrs = Some new →
  new = map (fun ka => (ka.1, grown n ka.2)) attrs
  ∧ Forall (fun ka => length (array ka.2) ≤ n * itemSize ka.2) attrs.
Proof.
  revert new. induction attrs as [|[k a] attrs IH]; intros new; simpl.
  - intros [= <-]. done.
  - unfold growArray. case_decide as Hk; [|done]. simpl.
    destruct (newAttributesOf n attrs) as [more|]; [|done]. simpl.
    intros [= <-]. destruct (IH more eq_refl) as [-> Hall].
    split; [done|]. by constructor.
Qed.

Lemma getAttribute_map name (f : BufferAttribute num → BufferAttribute num)
    (attrs : list (string * BufferAttribute num)) :
  getAttribute name (map (fun ka => (ka.1, f ka.2)) attrs) = f <$> getAttribute name attrs.
Proof.
  induction attrs as [|[k a] attrs IH]; simpl; [done|]. by case_decide.
Qed.

Lemma getAttribute_deleteAttribute name name'
    (attrs : list (string * BufferAttribute num)) :
  getAttribute name (deleteAttribute name' attrs)
  = if decide (name = name') then None else getAttribute name attrs.
Proof.
  unfold deleteAttribute. induction attrs as [|[k a] attrs IH]; simpl.
  - by case_decide.
  - rewrite filter_cons. simpl. destruct (decide (k = name')) as [Hk|Hk].
    + rewrite decide_False by tauto. rewrite IH. repeat case_decide; congruence.
    + rewrite decide_True by done. simpl. rewrite IH. repeat case_decide; congruence.
Qed.

Lemma getAttribute_setNormal_eq (normal : list num)
    (attrs : list (string * BufferAttribute num)) :
  array <$> getAttribute "normal" (setNormal normal attrs) = Some normal.
Proof.
  induction attrs as [|[k a] attrs IH]; simpl; [done|].
  destruct (decide (k = "normal"%string)) as [->|Hk]; simpl; [done|].
  by rewrite decide_False.
Qed.

Lemma getAttribute_setNormal_ne name (normal : list num)
    (attrs : list (string * BufferAttribute num)) :
  name ≠ "normal"%string →
  getAttribute name (setNormal normal attrs) = getAttribute name attrs.
Proof.
  intros Hne. induction attrs as [|[k a] attrs IH]; simpl.
  - by rewrite decide_False.
  - destruct (decide (k = "normal"%string)) as [->|Hk]; simpl.
    + by rewrite !decide_False.
    + by rewrite IH.
Qed.

End Copies.

(** ** The normals written back *)

Section Normals.
Context {num : Type} `{FloatOps num}.

Lemma changedNormals_fold (splits : list Split) (c : list (option bool)) v :
  arrayGet (fold_left (fun c splitData => arraySet c (original splitData) true) splits c) v
  = if decide (v ∈ map original splits) then Some true else arrayGet c v.
Proof.
  revert c. induction splits as [|[o g] splits IH]; intros c; cbn [fold_left map].
  - rewrite decide_False; [done|]. by intros ?%elem_of_nil.
  - rewrite IH. simpl. destruct (decide (v = o)) as [->|Hne].
    + rewrite arrayGet_arraySet_eq.
      rewrite (decide_True (P := o ∈ o :: _)) by left. by case_decide.
    + rewrite arrayGet_arraySet_ne by done.
      apply decide_ext. rewrite elem_of_cons. tauto.
Qed.

(** A vertex is marked when its number is the [original] of an entry. *)
Lemma changedNormalsOf_get count (splits : list Split) v :
  arrayGet (changedNormalsOf count splits) v
  = if decide (v ∈ map original splits) then Some true
    else if decide (v < count) then Some false else None.
Proof.
  unfold changedNormalsOf. rewrite changedNormals_fold. case_decide; [done|].
  unfold arrayGet. case_decide.
  - by rewrite lookup_replicate_2.
  - by rewrite lookup_ge_None_2 by (rewrite length_replicate; lia).
Qed.

Lemma restoreNormals_fold (oldNormals : list num) (changed : list (option bool))
    (normal : list num) n :
  let r := fold_left (fun normal i =>
               match arrayGet changed i with
               | Some false =>
                   fold_left (fun normal j =>
                       <[3 * i + j := fround (rd oldNormals (3 * i + j))]> normal)
                     (seq 0 3) normal
               | _ => normal
               end) (seq 0 n) normal in
  length r = length normal
  ∧ ∀ k, r !! k = if decide (k / 3 < n ∧ arrayGet changed (k / 3) = Some false
                             ∧ k < length normal)
                  then Some (fround (rd oldNormals k)) else normal !! k.
Proof.
  cbv zeta. induction n as [|n [IHlen IH]].
  - split; [done|]. intros k. rewrite decide_False; [done|]. lia.
  - rewrite (seq_S n 0), fold_left_app. cbn [fold_left]. rewrite Nat.add_0_l.
    set (r := fold_left _ (seq 0 n) normal) in *.
    assert (∀ k, k / 3 ≠ n →
              (if decide (k / 3 < n ∧ arrayGet changed (k / 3) = Some false
                          ∧ k < length normal)
               then Some (fround (rd oldNormals k)) else normal !! k)
              = (if decide (k / 3 < S n ∧ arrayGet changed (k / 3) = Some false
                            ∧ k < length normal)
                 then Some (fround (rd oldNormals k)) else normal !! k)) as Hother.
    { intros k Hk. apply decide_ext.
      split; intros (? & ? & ?); repeat split; [lia|..]; try done; lia. }
    destruct (arrayGet changed n) as [[|]|] eqn:En.
    1,3: split; [done|]; intros k; rewrite IH;
      destruct (decide (k / 3 = n)) as [Hk|Hk]; [|by apply Hother];
      rewrite !decide_False; [done| |]; rewrite ?Hk, ?En; intros (? & ? & ?); try lia; done.
    cbn [fold_left seq]. rewrite !length_insert. split; [done|]. intros k.
    pose proof (Nat.div_mod_eq k 3) as Hdm.
    pose proof (Nat.mod_upper_bound k 3 ltac:(done)) as Hmod.
    rewrite !list_lookup_insert, !length_insert, IHlen, IH.
    destruct (decide (k / 3 = n)) as [Hk|Hk].
    + rewrite (decide_False (P := k / 3 < n ∧ _)) by lia.
      destruct (decide (k < length normal)) as [Hlt|Hge].
      * assert (k / 3 < S n ∧ arrayGet changed (k / 3) = Some false
                ∧ k < length normal) as Hyes by (rewrite Hk; repeat split; [lia|done..]).
        rewrite (decide_True _ _ Hyes).
        repeat case_decide; try done;
          try (repeat f_equal; lia); exfalso; lia.
      * rewrite (decide_False (P := k / 3 < S n ∧ _)) by lia.
        repeat case_decide; try done; exfalso; lia.
    + rewrite <- (Hother k Hk).
      repeat case_decide; try done; exfalso; lia.
Qed.

(** A slot of the normal array is overwritten with the old value when
    the mark of its vertex is [false], and left alone when it is not. *)
Lemma restoreNormals_lookup (oldNormals : list num) (changed : list (option bool))
    (normal : list num) k :
  restoreNormals oldNormals changed normal !! k
  = if decide (arrayGet changed (k / 3) = Some false ∧ k < length normal)
    then Some (fround (rd oldNormals k)) else normal !! k.
Proof.
  unfold restoreNormals.
  destruct (restoreNormals_fold oldNormals changed normal (length changed)) as [_ ->].
  apply decide_ext. split; [tauto|]. intros [E ?]. split; [|done].
  by eapply arrayGet_Some_lt.
Qed.

Lemma restoreNormals_length (oldNormals : list num) (changed : list (option bool))
    (normal : list num) :
  length (restoreNormals oldNormals changed normal) = length normal.
Proof. apply (restoreNormals_fold oldNormals changed normal (length changed)). Qed.

End Normals.

(** ** The whole of [modify] *)

Section Properties.
Context {num : Type} `{FloatOps num}.
Variable computeVertexNormals : BufferGeometry num → list num.
Variable BufferGeometryUtils : option (BufferGeometry num → BufferGeometry num).

Implicit Types (σ : list (BufferGeometry num)) (g out : BufferGeometry num)
  (ixs : list nat) (position : BufferAttribute num) (splits : list Split).

Lemma rebuild_eq g ixs position cutOffAngle hadNormals oldNormals splits :
  index g = Some ixs →
  getAttribute "position" (attributes g) = Some position →
  itemSize position = 3 →
  length (array position) `mod` 3 = 0 →
  splitIndexesOf ixs (array position) cutOffAngle = inr splits →
  Forall (fun ka => length (array ka.2)
                    ≤ (length (array position) / 3 + length splits) * itemSize ka.2)
    (attributes g) →
  rebuild computeVertexNormals g cutOffAngle hadNormals oldNormals
  = reconcileNormals computeVertexNormals hadNormals oldNormals splits
      (rebuiltGeometry ixs (attributes g) (length (array position) / 3) splits).
Proof.
  intros Hix Hpos Hsz Hmod Hsplit Hfit. unfold rebuild.
  rewrite Hix, Hpos, Hsplit, Hsz. rewrite decide_True by done.
  rewrite decide_True by done.
  rewrite (newAttributesOf_Some _ _ Hfit).
  destruct (applySplits _ _ _ _ _ _) as [newAttributes newIndexes] eqn:E.
  unfold rebuiltGeometry. rewrite E. simpl. f_equal. f_equal.
  pose proof (f_equal fst E) as E1. simpl in E1.
  rewrite <- E1, applySplits_attributes, map_map. done.
Qed.

Lemma rebuild_throws g ixs position cutOffAngle hadNormals oldNormals e :
  index g = Some ixs →
  getAttribute "position" (attributes g) = Some position →
  length (array position) `mod` 3 = 0 →
  splitIndexesOf ixs (array position) cutOffAngle = inl e →
  rebuild computeVertexNormals g cutOffAngle hadNormals oldNormals = Thrown e.
Proof.
  intros Hix Hpos Hmod Hsplit. unfold rebuild.
  rewrite Hix, Hpos, Hsplit. by rewrite decide_True.
Qed.

Lemma deleteAttribute_absent name (attrs : list (string * BufferAttribute num)) :
  getAttribute name attrs = None → deleteAttribute name attrs = attrs.
Proof.
  unfold deleteAttribute. induction attrs as [|[k a] attrs IH]; simpl; [done|].
  case_decide as Hk; [done|]. intros E. rewrite filter_cons. simpl.
  rewrite decide_True by done. by rewrite IH.
Qed.

(** On an indexed [BufferGeometry] the call comes down to [rebuild] on
    the geometry without its normals; the objects of the caller stay as
    they were. *)
Lemma modify_indexed σ r g ixs cutOffAngle tryKeepNormals :
  σ !! r = Some g → isGeometry g = false → index g = Some ixs →
  ∃ σ', modify computeVertexNormals BufferGeometryUtils σ r cutOffAngle tryKeepNormals
        = (σ', rebuild computeVertexNormals
                 (mkGeometry false (Some ixs) (deleteAttribute "normal" (attributes g)))
                 cutOffAngle
                 (bool_decide (is_Some (getAttribute "normal" (attributes g))))
                 (if tryKeepNormals
                  then array <$> getAttribute "normal" (attributes g) else None))
      ∧ ∀ r' g', σ !! r' = Some g' → σ' !! r' = Some g'.
Proof.
  intros Hr Hmodern Hix. unfold modify. rewrite Hr, Hmodern.
  destruct (getAttribute "normal" (attributes g)) as [normal|] eqn:En.
  - rewrite list_lookup_insert_eq by (rewrite length_app; simpl; lia).
    simpl. rewrite Hix. eexists. split.
    + by destruct tryKeepNormals.
    + intros r' g' E. pose proof (lookup_lt_Some _ _ _ E).
      rewrite list_lookup_insert_ne by lia. by apply lookup_app_l_Some.
  - rewrite Hr, Hix. exists σ. split; [|done].
    rewrite (deleteAttribute_absent _ _ En).
    rewrite bool_decide_false by (by intros [? ?]).
    destruct g as [legacy ix attrs]. simpl in *. subst.
    by destruct tryKeepNormals.
Qed.

(** *** Valid meshes *)

Lemma getAttribute_elem_of name (attrs : list (string * BufferAttribute num)) a :
  getAttribute name attrs = Some a → (name, a) ∈ attrs.
Proof.
  induction attrs as [|[k a'] attrs IH]; simpl; [done|].
  case_decide as Hk; [intros [= ->]; subst; left|].
  intros E. right. by apply IH.
Qed.

Lemma deleteAttribute_subseteq name (attrs : list (string * BufferAttribute num)) :
  deleteAttribute name attrs ⊆ attrs.
Proof. intros ka. unfold deleteAttribute. rewrite list_elem_of_filter. tauto. Qed.

(** What the call returns on a mesh whose corner index has no hole and
    whose attribute arrays fit the rebuilt vertex count. *)
Lemma modify_outcome σ r g ixs position cutOffAngle tryKeepNormals splits :
  σ !! r = Some g → isGeometry g = false → index g = Some ixs →
  getAttribute "position" (attributes g) = Some position →
  itemSize position = 3 →
  length (array position) `mod` 3 = 0 →
  splitIndexesOf ixs (array position) cutOffAngle = inr splits →
  Forall (fun ka => length (array ka.2)
                    ≤ (length (array position) / 3 + length splits) * itemSize ka.2)
    (attributes g) →
  ∃ σ', modify computeVertexNormals BufferGeometryUtils σ r cutOffAngle tryKeepNormals
        = (σ', reconcileNormals computeVertexNormals
                 (bool_decide (is_Some (getAttribute "normal" (attributes g))))
                 (if tryKeepNormals
                  then array <$> getAttribute "normal" (attributes g) else None)
                 splits
                 (rebuiltGeometry ixs (deleteAttribute "normal" (attributes g))
                    (length (array position) / 3) splits))
      ∧ ∀ r' g', σ !! r' = Some g' → σ' !! r' = Some g'.
Proof.
  intros Hr Hmodern Hix Hpos Hsz Hmod Hsplit Hfit.
  destruct (modify_indexed σ r g ixs cutOffAngle tryKeepNormals Hr Hmodern Hix)
    as (σ' & -> & Hkeep).
  exists σ'. split; [|done]. f_equal.
  apply rebuild_eq; try done.
  - simpl. rewrite getAttribute_deleteAttribute. by rewrite decide_False.
  - simpl. apply Forall_forall. intros ka Hka.
    apply deleteAttribute_subseteq in Hka.
    by apply (proj1 (Forall_forall _ _) Hfit).
Qed.

Lemma modify_throws σ r g ixs position cutOffAngle tryKeepNormals e :
  σ !! r = Some g → isGeometry g = false → index g = Some ixs →
  getAttribute "position" (attributes g) = Some position →
  length (array position) `mod` 3 = 0 →
  splitIndexesOf ixs (array position) cutOffAngle = inl e →
  (modify computeVertexNormals BufferGeometryUtils σ r cutOffAngle tryKeepNormals).2
  = Thrown e.
Proof.
  intros Hr Hmodern Hix Hpos Hmod Hsplit.
  destruct (modify_indexed σ r g ixs cutOffAngle tryKeepNormals Hr Hmodern Hix)
    as (σ' & -> & Hkeep).
  simpl. eapply rebuild_throws; try done.
  simpl. rewrite getAttribute_deleteAttribute. by rewrite decide_False.
Qed.

End Properties.

(** ** The claims about the partitioner *)

Section PartitionerClaims.
Context {num : Type} `{FloatOps num}.
Implicit Types (normals : list num) (cutOff : num) (L : list nat).

Lemma edgeSplitGroups_length fuel normals cutOff L :
  length (edgeSplitGroups fuel normals L cutOff) ≤ length L.
Proof.
  revert L. induction fuel as [|fuel IH]; intros [|index0 L]; simpl; try lia.
  pose proof (selectGroup_shorter normals cutOff index0 L) as Hlt.
  specialize (IH (splitGroup (selectGroup normals (index0 :: L) cutOff index0))).
  simpl in *. lia.
Qed.

(** C8: [edgeSplit] ends on every corner list.  With the length of the
    list as budget it returns its entries, and any larger budget returns
    the same; it emits at most one group per corner; and on a non-empty
    list the group it keeps is not empty, so that the list it recurses
    on, [splitGroup], is strictly shorter than the list it was given. *)
Theorem edgeSplit_terminates normals cutOff L (o : option nat) :
  (∃ r, edgeSplit (length L) normals L cutOff o = Some r
        ∧ (∀ fuel, length L ≤ fuel → edgeSplit fuel normals L cutOff o = Some r)
        ∧ length r ≤ length L)
  ∧ length (edgeSplitGroups (length L) normals L cutOff) ≤ length L
  ∧ (∀ index0 L' fuel, L = index0 :: L' →
       let result := selectGroup normals L cutOff index0 in
       currentGroup result ≠ []
       ∧ length (splitGroup result) < length L
       ∧ edgeSplit (S fuel) normals L cutOff o
         = let pushed := match o with
                         | Some original => [mkSplit original (currentGroup result)]
                         | None => []
                         end in
           match splitGroup result with
           | [] => Some pushed
           | _ :: _ =>
               rest ← edgeSplit fuel normals (splitGroup result) cutOff
                        (Some (orElse o (default 0 (head (currentGroup result)))));
               Some (pushed ++ rest)
           end).
Proof.
  split; [|split].
  - destruct (edgeSplit_is_Some (length L) normals cutOff L o) as [r Hr]; [done|].
    exists r. split; [done|]. split.
    + intros fuel Hle. by eapply edgeSplit_fuel.
    + destruct o as [o|]; [by eapply edgeSplit_length_Some|].
      destruct L as [|index0 L]; [by destruct r|].
      apply edgeSplit_length_None in Hr. lia.
  - apply edgeSplitGroups_length.
  - intros index0 L' fuel ->. cbv zeta. split; [|split].
    + destruct (selectGroup_seed normals cutOff index0 L') as (seed & _ & ->).
      by rewrite edgeSplitToGroups_eq.
    + apply selectGroup_shorter.
    + done.
Qed.

Lemma edgeSplitToGroups_trialPartition normals L cutOff c :
  determinate normals L cutOff → c ∈ L →
  edgeSplitToGroups normals L cutOff c = trialPartition normals L cutOff c.
Proof.
  intros Hdet Hc. rewrite edgeSplitToGroups_eq. unfold trialPartition.
  assert (∀ x, x ∈ L →
            (x ≠ c ∧ compatible normals cutOff c x)
            ↔ (x ≠ c ∧ fge (vdot (normalAt normals x) (normalAt normals c)) cutOff = true))
    as Hsame.
  { intros x Hx. unfold compatible. rewrite (Hdet x c Hx Hc).
    destruct (flt _ _); simpl; intuition congruence. }
  f_equal.
  - apply filter_ext_in. intros x Hx.
    rewrite elem_of_cons, list_elem_of_filter.
    specialize (Hsame x Hx). unfold compatible in *.
    rewrite (Hdet x c Hx Hc) in *.
    destruct (flt _ _); simpl in *; intuition congruence.
  - f_equal. by apply filter_ext_in.
Qed.

(** C4: on a non-empty corner list [edgeSplit] takes every corner as a
    candidate seed, builds for each the trial partition of the
    specification, and emits the [currentGroup] of the candidate at the
    first position [k] of the list whose [currentGroup] is as long as any:
    every candidate is at most as long, every earlier one strictly
    shorter. *)
Theorem edgeSplit_emits_first_largest normals cutOff index0 L (o : nat) :
  determinate normals (index0 :: L) cutOff →
  let corners := index0 :: L in
  let trial := trialPartition normals corners cutOff in
  groupResults normals corners cutOff = map trial corners
  ∧ ∃ k seed rest,
      corners !! k = Some seed
      ∧ selectGroup normals corners cutOff index0 = trial seed
      ∧ (∀ k' c, corners !! k' = Some c →
           length (currentGroup (trial c)) ≤ length (currentGroup (trial seed)))
      ∧ (∀ k' c, k' < k → corners !! k' = Some c →
           length (currentGroup (trial c)) < length (currentGroup (trial seed)))
      ∧ edgeSplit (length corners) normals corners cutOff (Some o)
        = Some (mkSplit o (currentGroup (trial seed)) :: rest)
      ∧ head (edgeSplitGroups (length corners) normals corners cutOff)
        = Some (currentGroup (trial seed)).
Proof.
  intros Hdet corners trial. split.
  - unfold groupResults. apply map_ext_in. intros c Hc.
    apply edgeSplitToGroups_trialPartition; [done|]. by apply list_elem_of_In.
  - destruct (selectGroup_spec normals cutOff index0 L) as (k & seed & Hk & Hr & Hmax & Hfirst).
    assert (∀ k' c, corners !! k' = Some c →
              edgeSplitToGroups normals corners cutOff c = trial c) as Htrial.
    { intros k' c E. apply edgeSplitToGroups_trialPartition; [done|].
      by eapply list_elem_of_lookup_2. }
    fold corners in Hk, Hr, Hmax, Hfirst.
    rewrite (Htrial _ _ Hk) in Hr. rewrite Hr in Hmax, Hfirst.
    destruct (edgeSplit_is_Some (length corners) normals cutOff corners (Some o))
      as [r Er]; [done|].
    exists k, seed, (tail r). split; [done|]. split; [done|].
    split; [intros k' c E; rewrite <- (Htrial _ _ E); by eapply Hmax|].
    split; [intros k' c Hlt E; rewrite <- (Htrial _ _ E); by eapply Hfirst|].
    split.
    + rewrite Er. f_equal. simpl in Er. fold corners in Er. rewrite Hr in Er.
      destruct (splitGroup (trial seed)); [by injection Er as <-|].
      destruct (edgeSplit _ _ _ _ _); [|done]. by injection Er as <-.
    + simpl. fold corners. by rewrite Hr.
Qed.

End PartitionerClaims.

Lemma edgeSplit_emits_first_largest_witness :
  let corners : list nat := [1; 3] in
  let cutOff := Exact.sub (Exact.cos (Exact.of_Z 1)) (Some (1 # 1000)%Q) in
  let trial := trialPartition Samples.hingeNormals corners cutOff in
  groupResults Samples.hingeNormals corners cutOff = map trial corners
  ∧ ∃ k seed rest,
      corners !! k = Some seed
      ∧ selectGroup Samples.hingeNormals corners cutOff 1 = trial seed
      ∧ (∀ k' c, corners !! k' = Some c →
           length (currentGroup (trial c)) ≤ length (currentGroup (trial seed)))
      ∧ (∀ k' c, k' < k → corners !! k' = Some c →
           length (currentGroup (trial c)) < length (currentGroup (trial seed)))
      ∧ edgeSplit (length corners) Samples.hingeNormals corners cutOff (Some 7)
        = Some (mkSplit 7 (currentGroup (trial seed)) :: rest)
      ∧ head (edgeSplitGroups (length corners) Samples.hingeNormals corners cutOff)
        = Some (currentGroup (trial seed)).
Proof.
  apply (edgeSplit_emits_first_largest (H := Exact.ops) Samples.hingeNormals
           (Exact.sub (Exact.cos (Exact.of_Z 1)) (Some (1 # 1000)%Q)) 1 [3] 7).
  intros x c Hx Hc.
  repeat (apply elem_of_cons in Hx as [->|Hx]);
    repeat (apply elem_of_cons in Hc as [->|Hc]);
    try (by apply elem_of_nil in Hx); try (by apply elem_of_nil in Hc);
    vm_compute; reflexivity.
Defined.

(** ** Counting corners and entries *)

Lemma wrap32_small (n : nat) : (N.of_nat n < 2 ^ 32)%N → wrap32 n = n.
Proof. intros Hn. unfold wrap32. rewrite N.mod_small by done. apply Nat2N.id. Qed.

Lemma cornerCount_app (m1 m2 : list (option (list nat))) :
  cornerCount (m1 ++ m2) = cornerCount m1 + cornerCount m2.
Proof. apply sum_list_with_app. Qed.

Lemma cornerCount_replicate_None n : cornerCount (replicate n None) = 0.
Proof. induction n as [|n IH]; [done|]. unfold cornerCount in *. simpl. by rewrite IH. Qed.

Lemma cornerCount_insert (m : list (option (list nat))) i cell cell' :
  m !! i = Some cell →
  cornerCount (<[i := Some cell']> m) + length (default [] cell)
  = cornerCount m + length cell'.
Proof.
  revert i. induction m as [|c m IH]; intros [|i] E; simpl in E; [done..| |].
  - injection E as ->. unfold cornerCount. simpl. lia.
  - specialize (IH i E). unfold cornerCount in *. simpl. lia.
Qed.

Lemma cornerCount_step (m : list (option (list nat))) i x :
  cornerCount (mapPositionsToIndexesStep m (i, x)) = S (cornerCount m).
Proof.
  unfold mapPositionsToIndexesStep, arraySet, arrayGet. case_decide as Hx.
  - destruct (lookup_lt_is_Some_2 m x Hx) as [cell E]. rewrite E. simpl.
    pose proof (cornerCount_insert m x cell
                  (match cell with Some c => c | None => [] end ++ [i]) E) as Hc.
    rewrite length_app in Hc. simpl in Hc. destruct cell; simpl in *; lia.
  - rewrite lookup_ge_None_2 by lia. simpl.
    rewrite !cornerCount_app, cornerCount_replicate_None. unfold cornerCount. simpl. lia.
Qed.

Lemma cornerCount_mapPositionsToIndexes (l : list nat) n :
  cornerCount (mapPositionsToIndexes l n) = length l.
Proof.
  induction l as [|x l IH] using rev_ind.
  - unfold mapPositionsToIndexes. simpl. apply cornerCount_replicate_None.
  - rewrite mapPositionsToIndexes_snoc, cornerCount_step, IH, length_app. simpl. lia.
Qed.

(** The loop pushes at most one entry per corner. *)
Lemma splitAll_length {num} `{FloatOps num} (normals : list num) (cutOff : num)
    (m : list (option (list nat))) splits :
  splitAll normals cutOff m = inr splits → length splits ≤ cornerCount m.
Proof.
  revert splits. induction m as [|cell m IH]; intros splits E.
  - injection E as <-. simpl. lia.
  - destruct cell as [L|]; [|done]. simpl in E.
    destruct (edgeSplit _ _ _ _ _) as [pushed|] eqn:Ep; [|done].
    destruct (splitAll normals cutOff m) as [e'|more]; [done|].
    injection E as <-. specialize (IH more eq_refl).
    assert (length pushed ≤ length L) as Hp.
    { destruct L as [|index0 L]; [by destruct pushed|].
      apply edgeSplit_length_None in Ep. lia. }
    rewrite length_app. unfold cornerCount in *. simpl. lia.
Qed.

Lemma splitIndexesOf_length {num} `{FloatOps num} (ixs : list nat) (positions : list num)
    (cutOffAngle : num) splits :
  splitIndexesOf ixs positions cutOffAngle = inr splits → length splits ≤ length ixs.
Proof.
  unfold splitIndexesOf. intros E%splitAll_length.
  by rewrite cornerCount_mapPositionsToIndexes in E.
Qed.

(** ** The rebuilt geometry of a valid mesh *)

Section Rebuilt.
Context {num : Type} `{FloatOps num}.
Variable computeVertexNormals : BufferGeometry num → list num.
Variable BufferGeometryUtils : option (BufferGeometry num → BufferGeometry num).

Implicit Types (σ : list (BufferGeometry num)) (g out : BufferGeometry num)
  (ixs : list nat) (position : BufferAttribute num) (splits : list Split).

Lemma reconcileNormals_inv hadNormals oldNormals splits g out :
  reconcileNormals computeVertexNormals hadNormals oldNormals splits g = Returned out →
  index out = index g
  ∧ ∀ name, name ≠ "normal"%string →
      getAttribute name (attributes out) = getAttribute name (attributes g).
Proof.
  unfold reconcileNormals. destruct hadNormals; [|by intros [= <-]].
  destruct oldNormals as [old|]; [case_decide; [|done]|];
    intros [= <-]; simpl; (split; [done|]);
    intros name Hne; by apply getAttribute_setNormal_ne.
Qed.

Lemma valid_attribute_length g ixs position name a :
  validMesh g ixs position → getAttribute name (attributes g) = Some a →
  length (array a) = length (array position) / 3 * itemSize a.
Proof.
  intros Hv Ha. apply getAttribute_elem_of in Ha.
  by apply (proj1 (Forall_forall _ _) (valid_counts _ _ _ Hv) _ Ha).
Qed.

Lemma valid_fits g ixs position n :
  validMesh g ixs position →
  Forall (fun ka => length (array ka.2) ≤ (length (array position) / 3 + n) * itemSize ka.2)
    (attributes g).
Proof.
  intros Hv. eapply Forall_impl; [apply (valid_counts _ _ _ Hv)|].
  intros ka Hka. simpl in *. rewrite Hka. nia.
Qed.

Lemma valid_index_lt g ixs position s v :
  validMesh g ixs position → ixs !! s = Some v → v < length (array position) / 3.
Proof.
  intros Hv E. apply (proj1 (Forall_forall _ _) (valid_range _ _ _ Hv)).
  by eapply list_elem_of_lookup_2.
Qed.

(** With every vertex referenced the corner index has no hole and the
    loop over it yields its entries. *)
Lemma splitIndexesOf_total g ixs position cutOffAngle :
  validMesh g ixs position →
  (∀ v, v < length (array position) / 3 → v ∈ ixs) →
  ∃ splits, splitIndexesOf ixs (array position) cutOffAngle = inr splits.
Proof.
  intros Hv Hall. unfold splitIndexesOf. apply splitAll_inr.
  apply mapPositionsToIndexes_full; [done|].
  intros v w Hw Hlt. apply Hall.
  apply list_elem_of_lookup in Hw as [s Hs].
  pose proof (valid_index_lt _ _ _ _ _ Hv Hs). lia.
Qed.

(** The outcome on a valid mesh once the loop has yielded [splits]. *)
Lemma modify_valid σ r g ixs position cutOffAngle tryKeepNormals splits :
  σ !! r = Some g → validMesh g ixs position →
  splitIndexesOf ixs (array position) cutOffAngle = inr splits →
  ∃ σ', modify computeVertexNormals BufferGeometryUtils σ r cutOffAngle tryKeepNormals
        = (σ', reconcileNormals computeVertexNormals
                 (bool_decide (is_Some (getAttribute "normal" (attributes g))))
                 (if tryKeepNormals
                  then array <$> getAttribute "normal" (attributes g) else None)
                 splits
                 (rebuiltGeometry ixs (deleteAttribute "normal" (attributes g))
                    (length (array position) / 3) splits))
      ∧ ∀ r' g', σ !! r' = Some g' → σ' !! r' = Some g'.
Proof.
  intros Hr Hv Hsplit.
  apply (modify_outcome _ _ σ r g ixs position); try done; try apply Hv.
  by apply (valid_fits g ixs).
Qed.

Lemma modify_returned_inv σ r g ixs position cutOffAngle tryKeepNormals σ' out :
  σ !! r = Some g → validMesh g ixs position →
  modify computeVertexNormals BufferGeometryUtils σ r cutOffAngle tryKeepNormals
  = (σ', Returned out) →
  ∃ splits,
    splitIndexesOf ixs (array position) cutOffAngle = inr splits
    ∧ reconcileNormals computeVertexNormals
        (bool_decide (is_Some (getAttribute "normal" (attributes g))))
        (if tryKeepNormals then array <$> getAttribute "normal" (attributes g) else None)
        splits
        (rebuiltGeometry ixs (deleteAttribute "normal" (attributes g))
           (length (array position) / 3) splits)
      = Returned out.
Proof.
  intros Hr Hv Hm.
  destruct (splitIndexesOf ixs (array position) cutOffAngle) as [e|splits] eqn:Hsplit.
  - pose proof (modify_throws computeVertexNormals BufferGeometryUtils σ r g ixs position
                  cutOffAngle tryKeepNormals e Hr (valid_modern _ _ _ Hv)
                  (valid_index _ _ _ Hv) (valid_position _ _ _ Hv)
                  (valid_position_length _ _ _ Hv) Hsplit) as Ht.
    by rewrite Hm in Ht.
  - exists splits. split; [done|].
    destruct (modify_valid σ r g ixs position cutOffAngle tryKeepNormals splits Hr Hv Hsplit)
      as (σ'' & Hm' & _).
    rewrite Hm in Hm'. by injection Hm' as _ <-.
Qed.

(** On a valid mesh the normals are always written back or recomputed
    without an error. *)
Lemma reconcileNormals_returns g ixs position (tryKeepNormals : bool) splits geometry :
  validMesh g ixs position →
  ∃ out, reconcileNormals computeVertexNormals
           (bool_decide (is_Some (getAttribute "normal" (attributes g))))
           (if tryKeepNormals then array <$> getAttribute "normal" (attributes g) else None)
           splits geometry
         = Returned out.
Proof.
  intros Hv. unfold reconcileNormals.
  destruct (getAttribute "normal" (attributes g)) as [normal|] eqn:En.
  - rewrite bool_decide_true by (by eexists).
    destruct tryKeepNormals; simpl; [|by eexists].
    rewrite decide_True; [by eexists|].
    rewrite (valid_attribute_length _ _ _ _ _ Hv En), (valid_normal_size _ _ _ Hv _ En).
    apply Nat.Div0.mod_mul.
  - rewrite bool_decide_false by (by intros [? ?]). by eexists.
Qed.

Lemma modify_returns σ r g ixs position cutOffAngle tryKeepNormals :
  σ !! r = Some g → validMesh g ixs position →
  (∀ v, v < length (array position) / 3 → v ∈ ixs) →
  ∃ σ' out,
    modify computeVertexNormals BufferGeometryUtils σ r cutOffAngle tryKeepNormals
    = (σ', Returned out).
Proof.
  intros Hr Hv Hall.
  destruct (splitIndexesOf_total g ixs position cutOffAngle Hv Hall) as [splits Hsplit].
  destruct (modify_valid σ r g ixs position cutOffAngle tryKeepNormals splits Hr Hv Hsplit)
    as (σ' & -> & _).
  edestruct (reconcileNormals_returns g ixs position tryKeepNormals splits) as [out ->];
    [done|]. by eexists _, _.
Qed.

(** The index buffer of the rebuilt geometry: a slot keeps its vertex, or
    references the new vertex of the entry that holds it, an entry split
    from the vertex the slot referenced. *)
Lemma rebuilt_index g ixs position cutOffAngle splits attrs s v :
  validMesh g ixs position →
  splitIndexesOf ixs (array position) cutOffAngle = inr splits →
  (N.of_nat (length (array position) / 3 + length ixs) ≤ 2 ^ 32)%N →
  ixs !! s = Some v →
  let V := length (array position) / 3 in
  ∃ newIndexes,
    index (rebuiltGeometry ixs attrs V splits) = Some newIndexes
    ∧ length newIndexes = length ixs
    ∧ ((newIndexes !! s = Some v ∧ ∀ split, split ∈ splits → s ∉ indexes split)
       ∨ ∃ p split, splits !! p = Some split ∧ s ∈ indexes split
                    ∧ ixs !! original split = Some v
                    ∧ newIndexes !! s = Some (V + p)).
Proof.
  intros Hv Hsplit Hfit Hs V. eexists. split; [done|].
  split; [by rewrite applySplits_length, length_map|].
  pose proof (valid_index_lt _ _ _ _ _ Hv Hs) as Hlt.
  pose proof (splitIndexesOf_length _ _ _ _ Hsplit) as Hlen.
  assert (s < length (map wrap32 ixs)) as Hs'
    by (rewrite length_map; by eapply lookup_lt_Some).
  match goal with
  | |- context [applySplits ixs V 0 splits ?a ?n] =>
      destruct (applySplits_indexes ixs V 0 splits a n s Hs')
        as [[E Hnot]|(p & split & Hp & Hin & E)]
  end.
  - left. split; [|done]. rewrite E, list_lookup_fmap, Hs. simpl. f_equal.
    apply wrap32_small. lia.
  - right. exists p, split. split; [done|]. split; [done|].
    pose proof (lookup_lt_Some _ _ _ Hp) as Hp'.
    destruct (splitAll_vertex _ _ _ _ _ split Hsplit) as (v0 & Ho & Hall);
      [by eapply list_elem_of_lookup_2|].
    rewrite (Hall s Hin) in Hs. injection Hs as ->. split; [done|].
    rewrite E. f_equal. rewrite Nat.add_0_r. apply wrap32_small. unfold V. lia.
Qed.

Lemma rebuilt_attribute ixs (attrs : list (string * BufferAttribute num)) V splits name :
  getAttribute name (attributes (rebuiltGeometry ixs attrs V splits))
  = (fun a => copyAll ixs V 0 splits (grown (V + length splits) a))
      <$> getAttribute name attrs.
Proof.
  unfold rebuiltGeometry. simpl.
  apply (getAttribute_map name
           (fun a => copyAll ixs V 0 splits (grown (V + length splits) a))).
Qed.

(** The vertices that were there keep their values. *)
Lemma rebuilt_old_vertex ixs V splits (a : BufferAttribute num) k :
  k < length (array a) → length (array a) = V * itemSize a →
  array (copyAll ixs V 0 splits (grown (V + length splits) a)) !! k = array a !! k.
Proof.
  intros Hk Hlen. rewrite copyAll_below by (simpl; lia).
  simpl. by rewrite lookup_app_l.
Qed.

(** The new vertex of the [p]-th entry holds the values of the vertex
    its [original] references. *)
Lemma rebuilt_new_vertex ixs V splits (a : BufferAttribute num) p split v j :
  length (array a) = V * itemSize a →
  splits !! p = Some split → ixs !! original split = Some v → v < V →
  j < itemSize a →
  array (copyAll ixs V 0 splits (grown (V + length splits) a)) !! ((V + p) * itemSize a + j)
  = array a !! (v * itemSize a + j).
Proof.
  intros Hlen Hp Ho Hv Hj.
  pose proof (lookup_lt_Some _ _ _ Hp) as Hp'.
  pose proof (copyAll_copy ixs V 0 splits (grown (V + length splits) a) p split v j
                Hp Ho Hv) as Hc.
  simpl in Hc. rewrite Nat.add_0_r in Hc. rewrite Hc.
  - unfold rd. rewrite lookup_app_l by nia.
    destruct (lookup_lt_is_Some_2 (array a) (v * itemSize a + j)) as [x ->]; [nia|]. done.
  - done.
  - rewrite length_app, length_replicate. nia.
Qed.

End Rebuilt.

(** ** The claims about [modify] *)

Section ModifyClaims.
Context {num : Type} `{FloatOps num}.
Variable computeVertexNormals : BufferGeometry num → list num.
Variable BufferGeometryUtils : option (BufferGeometry num → BufferGeometry num).

Implicit Types (σ : list (BufferGeometry num)) (g out : BufferGeometry num)
  (ixs : list nat) (position : BufferAttribute num) (splits : list Split).

(** C7: on a legacy geometry the call logs an error and returns nothing,
    and on a geometry without index, when [BufferGeometryUtils] is
    missing, it throws: either way the caller gets no geometry, and every
    geometry that was in the store, the caller's own included, is as it
    was. *)
Theorem modify_unsupported σ r g cutOffAngle tryKeepNormals :
  σ !! r = Some g →
  isGeometry g = true ∨ (index g = None ∧ BufferGeometryUtils = None) →
  ∃ σ',
    modify computeVertexNormals BufferGeometryUtils σ r cutOffAngle tryKeepNormals
    = (σ', if isGeometry g then ReturnedUndefined else Thrown RelyOnBufferGeometryUtils)
    ∧ ∀ r' g', σ !! r' = Some g' → σ' !! r' = Some g'.
Proof.
  intros Hr Hcase. unfold modify. rewrite Hr.
  destruct (isGeometry g) eqn:Hlegacy; [by exists σ|].
  destruct Hcase as [?|[Hix Hutils]]; [done|]. rewrite Hutils.
  destruct (getAttribute "normal" (attributes g)) as [normal|].
  - rewrite list_lookup_insert_eq by (rewrite length_app; simpl; lia).
    simpl. rewrite Hix. eexists. split; [done|].
    intros r' g' E. pose proof (lookup_lt_Some _ _ _ E).
    rewrite list_lookup_insert_ne by lia. by apply lookup_app_l_Some.
  - rewrite Hr, Hix. by exists σ.
Qed.

(** C2, as the code has it: the corner index holds, for every vertex
    that some corner references, the slots that reference it, in order;
    a vertex that no corner references leaves a hole in it, not an empty
    list, and [modify] throws a [TypeError] when its loop reaches the
    hole. *)
Theorem modify_unreferenced_vertex σ r g ixs position cutOffAngle tryKeepNormals v :
  σ !! r = Some g → isGeometry g = false → index g = Some ixs →
  getAttribute "position" (attributes g) = Some position →
  length (array position) `mod` 3 = 0 →
  v < length (array position) / 3 → v ∉ ixs →
  (∀ u, arrayGet (mapPositionsToIndexes ixs (length (array position) / 3)) u
        = if decide (cornersOf ixs u = []) then None else Some (cornersOf ixs u))
  ∧ mapPositionsToIndexes ixs (length (array position) / 3) !! v = Some None
  ∧ (modify computeVertexNormals BufferGeometryUtils σ r cutOffAngle tryKeepNormals).2
    = Thrown TypeError.
Proof.
  intros Hr Hmodern Hix Hpos Hmod Hv Hnot.
  pose proof (mapPositionsToIndexes_hole ixs _ v Hv Hnot) as Hhole.
  split; [intros u; apply mapPositionsToIndexes_get|]. split; [done|].
  eapply modify_throws; try done.
  unfold splitIndexesOf. by eapply splitAll_hole.
Qed.

(** C10: on a valid mesh whose vertex and corner counts fit an unsigned
    32-bit index, [modify] returns a geometry as soon as every vertex is
    referenced, and whatever geometry it returns has an index buffer of
    the length of the input's in which every slot references either the
    vertex it referenced or the new vertex of an entry split from that
    vertex: the triangles are the same, corner by corner, in the same
    order. *)
Theorem modify_keeps_triangles σ r g ixs position cutOffAngle tryKeepNormals :
  σ !! r = Some g → validMesh g ixs position →
  (N.of_nat (length (array position) / 3 + length ixs) ≤ 2 ^ 32)%N →
  let V := length (array position) / 3 in
  ((∀ v, v < V → v ∈ ixs) →
   ∃ σ' out,
     modify computeVertexNormals BufferGeometryUtils σ r cutOffAngle tryKeepNormals
     = (σ', Returned out))
  ∧ ∀ σ' out,
      modify computeVertexNormals BufferGeometryUtils σ r cutOffAngle tryKeepNormals
      = (σ', Returned out) →
      ∃ splits newIndexes,
        splitIndexesOf ixs (array position) cutOffAngle = inr splits
        ∧ index out = Some newIndexes
        ∧ length newIndexes = length ixs
        ∧ ∀ s v, ixs !! s = Some v →
            (newIndexes !! s = Some v ∧ ∀ split, split ∈ splits → s ∉ indexes split)
            ∨ ∃ p split, splits !! p = Some split ∧ s ∈ indexes split
                         ∧ ixs !! original split = Some v
                         ∧ newIndexes !! s = Some (V + p).
Proof.
  intros Hr Hv Hfit V. split; [by apply (modify_returns _ _ σ r g ixs position)|].
  intros σ' out Hm.
  destruct (modify_returned_inv _ _ _ _ _ _ _ _ _ _ _ Hr Hv Hm) as (splits & Hsplit & Hrec).
  apply reconcileNormals_inv in Hrec as [Hindex _].
  exists splits. eexists. split; [done|]. split; [by rewrite Hindex|].
  split; [by rewrite applySplits_length, length_map|].
  intros s v Hs.
  destruct (rebuilt_index g ixs position cutOffAngle splits
              (deleteAttribute "normal" (attributes g)) s v Hv Hsplit Hfit Hs)
    as (newIndexes & Hix & _ & Hcases).
  injection Hix as <-. exact Hcases.
Qed.

(** C9: whatever geometry [modify] returns on a valid mesh, every
    attribute other than the normal keeps the values of the vertices that
    were there and holds, in the new vertex of every entry, the values of
    the vertex the entry was split from; and the position of the vertex a
    corner references in the output is the position of the vertex the
    corner referenced in the input. *)
Theorem modify_copies_vertices σ r g ixs position cutOffAngle tryKeepNormals :
  σ !! r = Some g → validMesh g ixs position →
  (N.of_nat (length (array position) / 3 + length ixs) ≤ 2 ^ 32)%N →
  let V := length (array position) / 3 in
  ((∀ v, v < V → v ∈ ixs) →
   ∃ σ' out,
     modify computeVertexNormals BufferGeometryUtils σ r cutOffAngle tryKeepNormals
     = (σ', Returned out))
  ∧ ∀ σ' out,
      modify computeVertexNormals BufferGeometryUtils σ r cutOffAngle tryKeepNormals
      = (σ', Returned out) →
      ∃ splits newIndexes position',
        splitIndexesOf ixs (array position) cutOffAngle = inr splits
        ∧ index out = Some newIndexes
        ∧ getAttribute "position" (attributes out) = Some position'
        ∧ (∀ p split, splits !! p = Some split →
             ∃ v, ixs !! original split = Some v ∧ v < V)
        ∧ (∀ name a, name ≠ "normal"%string → getAttribute name (attributes g) = Some a →
             ∃ a', getAttribute name (attributes out) = Some a'
                   ∧ itemSize a' = itemSize a
                   ∧ length (array a') = (V + length splits) * itemSize a
                   ∧ (∀ k, k < V * itemSize a → array a' !! k = array a !! k)
                   ∧ (∀ p split v j,
                        splits !! p = Some split → ixs !! original split = Some v →
                        j < itemSize a →
                        array a' !! ((V + p) * itemSize a + j)
                        = array a !! (v * itemSize a + j)))
        ∧ (∀ s v, ixs !! s = Some v →
             ∃ v', newIndexes !! s = Some v'
                   ∧ ∀ j, j < 3 →
                       array position' !! (3 * v' + j) = array position !! (3 * v + j)).
Proof.
  intros Hr Hv Hfit V. split; [by apply (modify_returns _ _ σ r g ixs position)|].
  intros σ' out Hm.
  destruct (modify_returned_inv _ _ _ _ _ _ _ _ _ _ _ Hr Hv Hm) as (splits & Hsplit & Hrec).
  apply reconcileNormals_inv in Hrec as [Hindex Hattrs].
  set (copy := fun a : BufferAttribute num =>
                 copyAll ixs V 0 splits (grown (V + length splits) a)).
  assert (∀ name a, name ≠ "normal"%string → getAttribute name (attributes g) = Some a →
            getAttribute name (attributes out) = Some (copy a)) as Hget.
  { intros name a Hne Ha. rewrite (Hattrs name Hne), rebuilt_attribute.
    rewrite getAttribute_deleteAttribute, decide_False by done. by rewrite Ha. }
  assert (∀ p split, splits !! p = Some split →
            ∃ v, ixs !! original split = Some v ∧ v < V) as Horig.
  { intros p split Hp.
    destruct (splitAll_vertex _ _ _ _ _ split Hsplit) as (v & Ho & _);
      [by eapply list_elem_of_lookup_2|].
    exists v. split; [done|]. by apply (valid_index_lt g ixs position (original split)). }
  exists splits. eexists. exists (copy position).
  split; [done|]. split; [by rewrite Hindex|].
  split; [apply Hget; [done|apply Hv]|].
  split; [exact Horig|]. split.
  - intros name a Hne Ha. exists (copy a). split; [by apply Hget|].
    pose proof (valid_attribute_length _ _ _ _ _ Hv Ha) as Hlen. fold V in Hlen.
    destruct (copyAll_itemSize ixs V 0 splits (grown (V + length splits) a))
      as (Hsz & _ & Hl).
    split; [exact Hsz|]. split.
    { unfold copy. rewrite Hl. simpl. rewrite length_app, length_replicate. nia. }
    split.
    + intros k Hk. apply rebuilt_old_vertex; lia.
    + intros p split v j Hp Ho Hj.
      destruct (Horig p split Hp) as (v0 & Ho' & Hlt).
      rewrite Ho in Ho'. injection Ho' as <-.
      by apply rebuilt_new_vertex with (split := split).
  - intros s v Hs.
    pose proof (valid_attribute_length _ _ _ _ _ Hv (valid_position _ _ _ Hv)) as Hlen.
    pose proof (valid_position_size _ _ _ Hv) as Hsz. fold V in Hlen.
    pose proof (valid_index_lt _ _ _ _ _ Hv Hs) as Hlt. fold V in Hlt.
    destruct (rebuilt_index g ixs position cutOffAngle splits
                (deleteAttribute "normal" (attributes g)) s v Hv Hsplit Hfit Hs)
      as (newIndexes & Hix & _ & [[E _]|(p & split & Hp & Hin & Ho & E)]);
      injection Hix as <-.
    + exists v. split; [done|]. intros j Hj. apply rebuilt_old_vertex; lia.
    + exists (V + p). split; [done|]. intros j Hj.
      replace (3 * (V + p) + j) with ((V + p) * itemSize position + j) by lia.
      replace (3 * v + j) with (v * itemSize position + j) by lia.
      apply rebuilt_new_vertex with (split := split); try done. lia.
Qed.

End ModifyClaims.

(** ** The claims on the sample meshes *)

Lemma hinge_valid : validMesh Samples.hinge hingeIndexes hingePosition.
Proof.
  split; try reflexivity.
  - repeat constructor.
  - intros normal [= <-]. reflexivity.
  - unfold hingeIndexes. repeat constructor.
Qed.

Lemma hinge_referenced v : v < 4 → v ∈ hingeIndexes.
Proof.
  intros Hv. unfold hingeIndexes.
  destruct v as [|[|[|[|v]]]]; [| | | |lia]; repeat constructor.
Qed.

Lemma modify_unsupported_witness :
  ∃ σ',
    modify Exact.computeVertexNormals None [Samples.legacy; Samples.soup] 1
      (Exact.of_Z 1) true
    = (σ', Thrown RelyOnBufferGeometryUtils)
    ∧ σ' !! 0 = Some Samples.legacy ∧ σ' !! 1 = Some Samples.soup.
Proof.
  destruct (modify_unsupported Exact.computeVertexNormals None
              [Samples.legacy; Samples.soup] 1 Samples.soup (Exact.of_Z 1) true
              eq_refl (or_intror (conj eq_refl eq_refl)))
    as (σ' & Hm & Hkeep).
  exists σ'. split; [exact Hm|]. split; apply Hkeep; reflexivity.
Defined.

Lemma modify_unreferenced_vertex_witness :
  (∀ u, arrayGet (mapPositionsToIndexes hingeIndexes 5) u
        = if decide (cornersOf hingeIndexes u = []) then None
          else Some (cornersOf hingeIndexes u))
  ∧ mapPositionsToIndexes hingeIndexes 5 !! 4 = Some None
  ∧ (modify Exact.computeVertexNormals None [Samples.hingeWithSpare] 0
       (Exact.of_Z 1) true).2
    = Thrown TypeError.
Proof.
  apply (modify_unreferenced_vertex Exact.computeVertexNormals None
           [Samples.hingeWithSpare] 0 Samples.hingeWithSpare hingeIndexes
           (mkAttribute
              (Exact.ints [0; 0; 0;  1; 0; 0;  0; 1; 0;  0; 0; 1;  5; 5; 5]%Z) 3 false)
           (Exact.of_Z 1) true 4);
    try reflexivity.
  - vm_compute. lia.
  - unfold hingeIndexes. intros Hin.
    repeat (apply elem_of_cons in Hin as [Hin|Hin]; [discriminate|]).
    by apply elem_of_nil in Hin.
Defined.

Lemma hinge_fits :
  (N.of_nat (length (array hingePosition) / 3 + length hingeIndexes) ≤ 2 ^ 32)%N.
Proof. by vm_compute. Qed.

Lemma modify_keeps_triangles_witness :
  ∃ σ' out newIndexes,
    modify Exact.computeVertexNormals None [Samples.hinge] 0 (Exact.of_Z 1) true
    = (σ', Returned out)
    ∧ index out = Some newIndexes ∧ length newIndexes = 6.
Proof.
  destruct (modify_keeps_triangles Exact.computeVertexNormals None [Samples.hinge] 0
              Samples.hinge hingeIndexes hingePosition (Exact.of_Z 1) true
              eq_refl hinge_valid hinge_fits)
    as [Hreturns Hkeeps].
  destruct (Hreturns hinge_referenced) as (σ' & out & Hm).
  destruct (Hkeeps σ' out Hm) as (splits & newIndexes & _ & Hix & Hlen & _).
  exists σ', out, newIndexes.
  split; [exact Hm|]. split; [exact Hix|exact Hlen].
Defined.

Lemma modify_copies_vertices_witness :
  ∃ σ' out newIndexes position',
    modify Exact.computeVertexNormals None [Samples.hinge] 0 (Exact.of_Z 1) true
    = (σ', Returned out)
    ∧ index out = Some newIndexes
    ∧ getAttribute "position" (attributes out) = Some position'
    ∧ ∀ s v, hingeIndexes !! s = Some v →
        ∃ v', newIndexes !! s = Some v'
              ∧ ∀ j, j < 3 →
                  array position' !! (3 * v' + j) = array hingePosition !! (3 * v + j).
Proof.
  destruct (modify_copies_vertices Exact.computeVertexNormals None [Samples.hinge] 0
              Samples.hinge hingeIndexes hingePosition (Exact.of_Z 1) true
              eq_refl hinge_valid hinge_fits)
    as [Hreturns Hcopies].
  destruct (Hreturns hinge_referenced) as (σ' & out & Hm).
  destruct (Hcopies σ' out Hm)
    as (splits & newIndexes & position' & _ & Hix & Hpos & _ & _ & Hcorners).
  exists σ', out, newIndexes, position'.
  split; [exact Hm|]. split; [exact Hix|]. split; [exact Hpos|exact Hcorners].
Defined.

(** ** A threshold that accepts every pair of normals *)

Section Generous.
Context {num : Type} `{FloatOps num}.
Variable computeVertexNormals : BufferGeometry num → list num.
Variable BufferGeometryUtils : option (BufferGeometry num → BufferGeometry num).

Implicit Types (σ : list (BufferGeometry num)) (g out : BufferGeometry num)
  (ixs : list nat) (position : BufferAttribute num) (splits : list Split)
  (normals : list num) (cutOff : num).








End Generous.







(** ** Meshes the specification calls invalid *)

Section Unchecked.
Context {num : Type} `{FloatOps num}.
Variable computeVertexNormals : BufferGeometry num → list num.
Variable BufferGeometryUtils : option (BufferGeometry num → BufferGeometry num).

Implicit Types (σ : list (BufferGeometry num)) (g out : BufferGeometry num)
  (ixs : list nat) (position : BufferAttribute num).

(** C3, amended: [modify] checks neither the range of the indices nor the
    lengths of the attribute arrays.  On an indexed geometry whose
    positions come in triples, an index buffer in which every vertex
    number below the vertex count or below a referenced number is itself
    referenced, whether or not it stays below the vertex count, and
    attribute arrays that are not longer than the vertex count allows,
    possibly shorter, are accepted: the call returns a geometry with an
    index buffer of the length of the input's. *)
Theorem modify_unchecked_topology σ r g ixs position cutOffAngle tryKeepNormals :
  σ !! r = Some g → isGeometry g = false → index g = Some ixs →
  getAttribute "position" (attributes g) = Some position →
  itemSize position = 3 →
  length (array position) `mod` 3 = 0 →
  (∀ v, v < length (array position) / 3 → v ∈ ixs) →
  (∀ v w, w ∈ ixs → v < w → v ∈ ixs) →
  Forall (fun ka => length (array ka.2) ≤ length (array position) / 3 * itemSize ka.2)
    (attributes g) →
  (∀ normal, getAttribute "normal" (attributes g) = Some normal →
     length (array normal) `mod` 3 = 0) →
  ∃ σ' out newIndexes,
    modify computeVertexNormals BufferGeometryUtils σ r cutOffAngle tryKeepNormals
    = (σ', Returned out)
    ∧ index out = Some newIndexes
    ∧ length newIndexes = length ixs.
Proof.
  intros Hr Hmodern Hix Hpos Hsz Hmod Hlow Hdown Hfit Hnormal.
  destruct (splitAll_inr (computeNormals ixs (array position))
              (fsub (fcos cutOffAngle) milli)
              (mapPositionsToIndexes ixs (length (array position) / 3))
              (mapPositionsToIndexes_full ixs _ Hlow Hdown)) as [splits Hsplit].
  destruct (modify_outcome computeVertexNormals BufferGeometryUtils σ r g ixs position
              cutOffAngle tryKeepNormals splits Hr Hmodern Hix Hpos Hsz Hmod Hsplit)
    as (σ' & Hm & _).
  { eapply Forall_impl; [exact Hfit|]. intros ka Hka. simpl in *. nia. }
  rewrite Hm. unfold reconcileNormals.
  destruct (getAttribute "normal" (attributes g)) as [normal|] eqn:En.
  - rewrite bool_decide_true by (by eexists).
    destruct tryKeepNormals; simpl.
    + rewrite decide_True by (by apply Hnormal).
      eexists _, _, _. split; [done|]. simpl. split; [done|].
      by rewrite applySplits_length, length_map.
    + eexists _, _, _. split; [done|]. simpl. split; [done|].
      by rewrite applySplits_length, length_map.
  - rewrite bool_decide_false by (by intros [? ?]).
    eexists _, _, _. split; [done|]. simpl. split; [done|].
    by rewrite applySplits_length, length_map.
Qed.

End Unchecked.

(** The last corner of the sample references vertex 4 of four vertices,
    and [modify] returns a geometry all the same. *)
Lemma modify_accepts_index_out_of_range :
  outOfRangeIndexes !! 5 = Some 4
  ∧ length (array hingePosition) / 3 = 4
  ∧ index Samples.hingeOutOfRange = Some outOfRangeIndexes
  ∧ getAttribute "position" (attributes Samples.hingeOutOfRange) = Some hingePosition
  ∧ ∃ out, Exact.run Samples.hingeOutOfRange (Exact.of_Z 1) true = Returned out.
Proof.
  repeat (split; [reflexivity|]). eexists. vm_compute. reflexivity.
Qed.

Lemma outOfRange_low v : v < length (array hingePosition) / 3 → v ∈ outOfRangeIndexes.
Proof.
  change (length (array hingePosition) / 3) with 4. intros Hv. unfold outOfRangeIndexes.
  destruct v as [|[|[|[|v]]]]; [| | | |lia]; repeat constructor.
Qed.

Lemma outOfRange_down v w : w ∈ outOfRangeIndexes → v < w → v ∈ outOfRangeIndexes.
Proof.
  unfold outOfRangeIndexes. intros Hw Hlt.
  assert (w < 5) as Hw'.
  { repeat (apply elem_of_cons in Hw as [->|Hw]; [lia|]). by apply elem_of_nil in Hw. }
  destruct v as [|[|[|[|v]]]]; [| | | |lia]; repeat constructor.
Qed.

Lemma modify_unchecked_topology_witness :
  ∃ σ' out newIndexes,
    modify Exact.computeVertexNormals None [Samples.hingeOutOfRange] 0 (Exact.of_Z 1) true
    = (σ', Returned out)
    ∧ index out = Some newIndexes
    ∧ length newIndexes = length outOfRangeIndexes.
Proof.
  apply (modify_unchecked_topology Exact.computeVertexNormals None
           [Samples.hingeOutOfRange] 0 Samples.hingeOutOfRange outOfRangeIndexes
           hingePosition (Exact.of_Z 1) true);
    try reflexivity.
  - exact outOfRange_low.
  - exact outOfRange_down.
  - repeat constructor.
  - intros normal E. discriminate E.
Defined.

(** ** The threshold at [cutOffAngle == 0] *)

Section ZeroAngle.
Context {num : Type} `{FloatOps num}.
Implicit Types (normals : list num) (cutOff : num) (L : list nat).

Lemma edgeSplitGroups_greedy fuel normals cutOff L :
  length L ≤ fuel → greedyGroups normals cutOff L (edgeSplitGroups fuel normals L cutOff).
Proof.
  revert L. induction fuel as [|fuel IH]; intros [|index0 L] Hlen; simpl in *;
    try lia; try constructor.
  pose proof (selectGroup_shorter normals cutOff index0 L) as Hlt.
  destruct (selectGroup_seed normals cutOff index0 L) as (seed & Hseed & Hsel).
  rewrite Hsel in *. rewrite edgeSplitToGroups_eq in *. simpl in *.
  constructor; [done|]. apply IH. lia.
Qed.


End ZeroAngle.


(** ** Which normals are written back *)

(** What lines 262-281 do: vertex [v] gets its old normal back unless
    the number [v] is the [original] of an entry, and [original] is the
    number of a corner. *)
Lemma restored_unless_original {num} `{FloatOps num}
    (computeVertexNormals : BufferGeometry num → list num)
    (splits : list Split) (geometry out : BufferGeometry num) (oldNormals : list num) :
  length oldNormals `mod` 3 = 0 →
  reconcileNormals computeVertexNormals true (Some oldNormals) splits geometry
  = Returned out →
  ∃ normal,
    array <$> getAttribute "normal" (attributes out) = Some normal
    ∧ ∀ v j, j < 3 →
        normal !! (3 * v + j)
        = if decide (v < length oldNormals / 3 ∧ (v ∉ map original splits)
                     ∧ 3 * v + j < length (computeVertexNormals geometry))
          then Some (fround (rd oldNormals (3 * v + j)))
          else computeVertexNormals geometry !! (3 * v + j).
Proof.
  intros Hmod. unfold reconcileNormals. rewrite decide_True by done.
  intros [= <-]. eexists. split; [apply getAttribute_setNormal_eq|].
  intros v j Hj. rewrite restoreNormals_lookup.
  replace ((3 * v + j) / 3) with v by (apply (Nat.div_unique _ 3 v j); lia).
  rewrite changedNormalsOf_get. apply decide_ext.
  repeat case_decide; split; intros; destruct_and?; try done; try tauto.
Qed.

(** C1, on the hinge: the two entries are split from vertices 0 and 1
    (their [original] corners 1 and 2 reference them) and vertices 2 and 3
    are in no entry.  With [tryKeepNormals], vertex 0 comes back with its
    old normal (1,0,0) although the recomputed one is (0,0,1), and vertex 2
    comes back with the recomputed normal (0,0,1) although its old one is
    (1,0,0): the marks are set at the corner numbers 1 and 2. *)
Theorem restore_marks_corner_numbers :
  splitIndexesOf hingeIndexes (array hingePosition) (Exact.of_Z 1)
  = inr [mkSplit 1 [3]; mkSplit 2 [5]]
  ∧ hingeIndexes !! 1 = Some 0 ∧ hingeIndexes !! 2 = Some 1
  ∧ array <$> getAttribute "normal" (attributes Samples.hinge) = Some hingeOldNormals
  ∧ changedNormalsOf 4 [mkSplit 1 [3]; mkSplit 2 [5]]
    = [Some false; Some true; Some true; Some false]
  ∧ ∃ recomputed restored,
      Exact.run Samples.hinge (Exact.of_Z 1) false = Returned recomputed
      ∧ Exact.run Samples.hinge (Exact.of_Z 1) true = Returned restored
      ∧ array <$> getAttribute "normal" (attributes recomputed)
        = Some (Exact.ints [0; 0; 1;  0; 0; 1;  0; 0; 1;  0; 1; 0;  0; 1; 0;  0; 1; 0]%Z)
      ∧ array <$> getAttribute "normal" (attributes restored)
        = Some (Exact.ints [1; 0; 0;  0; 0; 1;  0; 0; 1;  1; 0; 0;  0; 1; 0;  0; 1; 0]%Z).
Proof.
  repeat (split; [by vm_compute|]). eexists _, _.
  split; [by vm_compute|]. split; [by vm_compute|]. split; by vm_compute.
Qed.

(** ** The face normal table *)

Section FaceNormals.
Context {num : Type} `{FloatOps num}.
Implicit Types (ixs : list nat) (positions normals : list num).

Lemma computeNormalsStep_length ixs positions normals i :
  length (computeNormalsStep ixs positions normals i) = length normals.
Proof. unfold computeNormalsStep. cbn [fold_left seq]. by rewrite !length_insert. Qed.

Lemma computeNormalsStep_outside ixs positions normals i k :
  k < 3 * i ∨ 3 * i + 9 ≤ k →
  computeNormalsStep ixs positions normals i !! k = normals !! k.
Proof.
  intros Hk. unfold computeNormalsStep. cbn [fold_left seq].
  by rewrite !list_lookup_insert_ne by lia.
Qed.

Lemma computeNormalsStep_inside ixs positions normals i j :
  j < 3 → 3 * (i + j) + 2 < length normals →
  let normal := faceNormal ixs positions i in
  let r := computeNormalsStep ixs positions normals i in
  r !! (3 * (i + j)) = Some (fround (vx normal))
  ∧ r !! (3 * (i + j) + 1) = Some (fround (vy normal))
  ∧ r !! (3 * (i + j) + 2) = Some (fround (vz normal)).
Proof.
  intros Hj Hlen. cbv zeta. unfold computeNormalsStep, faceNormal. cbn [fold_left seq].
  destruct j as [|[|[|j]]]; [| | |lia];
    (split; [|split]);
    repeat (rewrite list_lookup_insert_ne by lia);
    rewrite list_lookup_insert_eq; try done; rewrite ?length_insert; lia.
Qed.

Lemma computeNormals_fold ixs positions normals T :
  let r := fold_left (computeNormalsStep ixs positions)
             (map (fun t => 3 * t) (seq 0 T)) normals in
  length r = length normals
  ∧ (∀ k, 9 * T ≤ k → r !! k = normals !! k)
  ∧ (∀ t j, t < T → j < 3 → 3 * (3 * t + j) + 2 < length normals →
       let normal := faceNormal ixs positions (3 * t) in
       r !! (3 * (3 * t + j)) = Some (fround (vx normal))
       ∧ r !! (3 * (3 * t + j) + 1) = Some (fround (vy normal))
       ∧ r !! (3 * (3 * t + j) + 2) = Some (fround (vz normal))).
Proof.
  cbv zeta. induction T as [|T (IHlen & IHout & IHin)]; [by repeat split; intros; lia|].
  rewrite (seq_S T 0), map_app, fold_left_app. cbn [map fold_left]. rewrite Nat.add_0_l.
  set (r := fold_left _ (map _ (seq 0 T)) normals) in *.
  split; [by rewrite computeNormalsStep_length|]. split.
  - intros k Hk. rewrite computeNormalsStep_outside by lia. apply IHout. lia.
  - intros t j Ht Hj Hlen. destruct (decide (t = T)) as [->|Hne].
    + apply computeNormalsStep_inside; [done|]. by rewrite IHlen.
    + rewrite !computeNormalsStep_outside by lia. apply IHin; [lia|done|done].
Qed.

(** X1: the table [computeNormals] builds has three numbers per corner, and
    the three corners of every triangle that is whole hold the same
    normal, rounded to single precision: the normalised cross product of
    [pC - pB] and [pA - pB]. *)
Theorem computeNormals_table ixs positions :
  length (computeNormals ixs positions) = length ixs * 3
  ∧ ∀ t j, j < 3 → 3 * t + 2 < length ixs →
      let normal := faceNormal ixs positions (3 * t) in
      let normals := computeNormals ixs positions in
      normals !! (3 * (3 * t + j)) = Some (fround (vx normal))
      ∧ normals !! (3 * (3 * t + j) + 1) = Some (fround (vy normal))
      ∧ normals !! (3 * (3 * t + j) + 2) = Some (fround (vz normal)).
Proof.
  unfold computeNormals, triangleSlots.
  destruct (computeNormals_fold ixs positions (replicate (length ixs * 3) zero)
              ((length ixs + 2) / 3)) as (Hlen & _ & Hin).
  rewrite length_replicate in Hlen, Hin. split; [done|].
  intros t j Hj Ht. apply Hin; [|done|lia].
  pose proof (Nat.div_mod_eq (length ixs + 2) 3) as Hdm.
  pose proof (Nat.mod_upper_bound (length ixs + 2) 3 ltac:(done)). lia.
Qed.

End FaceNormals.

(** ** The corner index as a partition of the slots *)

Lemma mapPositionsToIndexes_size (l : list nat) n :
  length (mapPositionsToIndexes l n) = n `max` max_list_with S l.
Proof.
  induction l as [|x l IH] using rev_ind.
  - unfold mapPositionsToIndexes. simpl. rewrite length_replicate. lia.
  - rewrite mapPositionsToIndexes_snoc. unfold mapPositionsToIndexesStep.
    rewrite length_arraySet, IH.
    assert (l ++ [x] ≡ₚ x :: l) as -> by (by rewrite Permutation_app_comm).
    simpl. lia.
Qed.

(** X2: the corner index has as many cells as there are vertices, or more
    when an index reaches past them; its cells hold every slot of
    the index buffer, each one once, in the cell of the vertex the slot
    references. *)
Theorem mapPositionsToIndexes_partition (l : list nat) n :
  let m := mapPositionsToIndexes l n in
  length m = n `max` max_list_with S l
  ∧ cornerCount m = length l
  ∧ (∀ v cell, m !! v = Some (Some cell) → NoDup cell ∧ cell ≠ [])
  ∧ ∀ i v, (∃ cell, m !! v = Some (Some cell) ∧ i ∈ cell) ↔ l !! i = Some v.
Proof.
  cbv zeta. split; [apply mapPositionsToIndexes_size|].
  split; [apply cornerCount_mapPositionsToIndexes|]. split.
  - intros v cell E. apply mapPositionsToIndexes_lookup in E as [-> Hv].
    split; [apply NoDup_cornersOf|]. by intros Hn%cornersOf_nil_iff.
  - intros i v. split.
    + intros (cell & E & Hi). apply mapPositionsToIndexes_lookup in E as [-> _].
      by apply elem_of_cornersOf.
    + intros E. exists (cornersOf l v). split; [|by apply elem_of_cornersOf].
      pose proof (mapPositionsToIndexes_get l n v) as G.
      rewrite decide_False in G.
      * unfold arrayGet in G.
        destruct (mapPositionsToIndexes l n !! v) as [[cell|]|]; simpl in G; congruence.
      * rewrite cornersOf_nil_iff. intros Hn. apply Hn. by eapply list_elem_of_lookup_2.
Qed.

(** ** Trial partitions and groups as partitions of the corner list *)

Section Partitions.
Context {num : Type} `{FloatOps num}.
Implicit Types (normals : list num) (cutOff : num) (L : list nat) (seed j : nat).

Lemma filter_all {A} (P : A → Prop) `{!∀ x, Decision (P x)} (l : list A) :
  (∀ x, x ∈ l → P x) → filter P l = l.
Proof.
  induction l as [|x l IH]; intros Hall; [done|].
  rewrite filter_cons_True by (apply Hall; left).
  f_equal. apply IH. intros y Hy. apply Hall. by right.
Qed.

Lemma seed_and_others L seed :
  NoDup L → seed ∈ L → seed :: filter (fun j => j ≠ seed) L ≡ₚ L.
Proof.
  induction L as [|x L IH]; intros Hnd Hin; [by apply elem_of_nil in Hin|].
  apply NoDup_cons in Hnd as [Hx Hnd]. rewrite filter_cons.
  destruct (decide (x = seed)) as [->|Hne].
  - rewrite decide_False by tauto.
    rewrite filter_all; [done|]. intros y Hy ->. done.
  - rewrite decide_True by done.
    apply elem_of_cons in Hin as [->|Hin]; [done|].
    rewrite perm_swap. by rewrite IH.
Qed.

Lemma trial_groups_others normals cutOff seed L :
  filter (fun j => j ≠ seed ∧ compatible normals cutOff seed j) L
  ++ filter (fun j => j ≠ seed ∧ ¬ compatible normals cutOff seed j) L
  ≡ₚ filter (fun j => j ≠ seed) L.
Proof.
  rewrite (list_filter_iff (fun j => j ≠ seed ∧ compatible normals cutOff seed j)
             (fun j => compatible normals cutOff seed j ∧ j ≠ seed)) by (intros j; tauto).
  rewrite (list_filter_iff (fun j => j ≠ seed ∧ ¬ compatible normals cutOff seed j)
             (fun j => ¬ compatible normals cutOff seed j ∧ j ≠ seed)) by (intros j; tauto).
  rewrite <- !list_filter_filter. apply filter_app_complement.
Qed.

(** X3: a trial partition puts its seed first and once, drops every other
    copy of it, and deals every other corner of the list to exactly one
    side: to [currentGroup] when the test [dot < cutOff] against the seed
    fails, to [splitGroup] when it holds. *)
Theorem edgeSplitToGroups_partition normals cutOff seed L :
  let result := edgeSplitToGroups normals L cutOff seed in
  head (currentGroup result) = Some seed
  ∧ currentGroup result ++ splitGroup result ≡ₚ seed :: filter (fun j => j ≠ seed) L
  ∧ (∀ j, j ∈ tail (currentGroup result) →
       flt (vdot (normalAt normals j) (normalAt normals seed)) cutOff = false)
  ∧ (∀ j, j ∈ splitGroup result →
       flt (vdot (normalAt normals j) (normalAt normals seed)) cutOff = true).
Proof.
  cbv zeta. rewrite edgeSplitToGroups_eq. simpl. split; [done|]. split.
  - by rewrite trial_groups_others.
  - split; intros j [[_ Hj] _]%list_elem_of_filter; [done|].
    unfold compatible in Hj. by destruct (flt _ _).
Qed.

Lemma greedyGroups_partition normals cutOff L groups :
  greedyGroups normals cutOff L groups → NoDup L →
  concat groups ≡ₚ L ∧ Forall (fun group => group ≠ []) groups.
Proof.
  induction 1 as [|L seed groups Hseed _ IH]; intros Hnd; [done|].
  destruct IH as [IHperm IHne]; [by apply NoDup_filter|].
  split; [|by constructor].
  simpl. rewrite IHperm. rewrite <- (seed_and_others L seed Hnd Hseed) at 3.
  f_equiv. apply trial_groups_others.
Qed.

(** X4: on a corner list without repetition the groups of [edgeSplit], the
    first one and those of the pushed entries, are not empty and hold
    every corner of the list exactly once. *)
Theorem edgeSplit_partition normals cutOff L :
  NoDup L →
  let groups := edgeSplitGroups (length L) normals L cutOff in
  concat groups ≡ₚ L
  ∧ Forall (fun group => group ≠ []) groups
  ∧ ∃ pushed, edgeSplit (length L) normals L cutOff None = Some pushed
              ∧ map indexes pushed = tail groups.
Proof.
  intros Hnd groups.
  destruct (greedyGroups_partition normals cutOff L groups) as [Hperm Hne];
    [by apply edgeSplitGroups_greedy|done|].
  split; [done|]. split; [done|].
  destruct (edgeSplit_is_Some (length L) normals cutOff L None) as [pushed Hp]; [done|].
  exists pushed. split; [done|]. by apply edgeSplit_groups in Hp.
Qed.

(** An [original] other than corner 0 is handed down unchanged. *)
Lemma edgeSplit_original_kept fuel normals cutOff L (o : nat) pushed :
  edgeSplit fuel normals L cutOff (Some (S o)) = Some pushed →
  Forall (fun split => original split = S o) pushed.
Proof.
  revert L pushed. induction fuel as [|fuel IH]; intros [|index0 L] pushed E;
    simpl in E; try done; try (injection E as <-; constructor).
  destruct (splitGroup _) as [|j sg]; [injection E as <-; by repeat constructor|].
  destruct (edgeSplit fuel _ _ _ _) as [rest|] eqn:Er; [|done].
  injection E as <-. constructor; [done|]. by eapply IH.
Qed.

(** X5: the entries pushed for one vertex: their [original] is the seed of
    the first group, the corner whose vertex they are split from, unless
    that seed is corner 0, which [original || ...] takes for a missing
    value: then the first entry has [original] 0 and the later ones the
    seed of the first entry's own group. *)
Theorem edgeSplit_originals normals cutOff index0 L pushed :
  edgeSplit (length (index0 :: L)) normals (index0 :: L) cutOff None = Some pushed →
  let seed := default 0 (head (currentGroup (selectGroup normals (index0 :: L) cutOff index0))) in
  match seed, pushed with
  | _, [] => True
  | S _, _ => Forall (fun split => original split = seed) pushed
  | 0, first :: rest =>
      original first = 0
      ∧ ∃ seed', head (indexes first) = Some (S seed')
                 ∧ Forall (fun split => original split = S seed') rest
  end.
Proof.
  intros E seed. simpl in E. fold seed in E.
  destruct (splitGroup _) as [|j sg] eqn:Esg; [injection E as <-; by destruct seed|].
  destruct (edgeSplit (length L) _ _ _ _) as [entries|] eqn:Er; [|done].
  injection E as <-.
  assert (default 0 (head (currentGroup (selectGroup normals (index0 :: L) cutOff index0)))
          = seed) as Es by done.
  clearbody seed. destruct seed as [|seed].
  - (* the first seed is corner 0 *)
    destruct entries as [|first rest]; [done|].
    destruct (length L) as [|fuel]; [done|]. simpl in Er.
    destruct (selectGroup_seed normals cutOff j sg) as (seed2 & Hseed2 & Hsel).
    rewrite Hsel in Er. rewrite edgeSplitToGroups_eq in Er. simpl in Er.
    assert (seed2 ≠ 0) as Hne.
    { destruct (selectGroup_seed normals cutOff index0 L) as (seed1 & _ & Hsel1).
      rewrite Hsel1 in Esg, Es. rewrite edgeSplitToGroups_eq in Esg, Es.
      simpl in Esg, Es. subst seed1.
      assert (seed2 ∈ filter (fun j => j ≠ 0 ∧ ¬ compatible normals cutOff 0 j)
                         (index0 :: L)) as Hin by (rewrite Esg; exact Hseed2).
      apply list_elem_of_filter in Hin. tauto. }
    destruct seed2 as [|seed2]; [done|].
    destruct (filter _ (j :: sg)) as [|j' sg'].
    + injection Er as <- <-. split; [done|]. exists seed2. split; [done|constructor].
    + destruct (edgeSplit fuel _ _ _ _) as [rest'|] eqn:Er'; [|done].
      injection Er as <- <-. split; [done|]. exists seed2. split; [done|].
      by eapply edgeSplit_original_kept.
  - simpl. destruct entries as [|first rest]; [done|].
    by eapply edgeSplit_original_kept.
Qed.

End Partitions.

Lemma edgeSplit_partition_witness :
  concat (edgeSplitGroups 2 Samples.hingeNormals [1; 3]
            (Exact.sub (Exact.cos (Exact.of_Z 1)) (Some (1 # 1000)%Q)))
  ≡ₚ [1; 3].
Proof.
  destruct (edgeSplit_partition (H := Exact.ops) Samples.hingeNormals
              (Exact.sub (Exact.cos (Exact.of_Z 1)) (Some (1 # 1000)%Q)) [1; 3])
    as (Hperm & _ & _).
  - repeat constructor; intros Hin;
      repeat (apply elem_of_cons in Hin as [Hin|Hin]; [discriminate|]);
      by apply elem_of_nil in Hin.
  - exact Hperm.
Defined.

Lemma edgeSplit_originals_witness :
  Forall (fun split => original split = 1) [mkSplit 1 [3]]
  ∧ (original (mkSplit 0 [3]) = 0
     ∧ ∃ seed', head (indexes (mkSplit 0 [3])) = Some (S seed')
                ∧ Forall (fun split => original split = S seed') []).
Proof.
  split.
  - exact (edgeSplit_originals (H := Exact.ops) Samples.hingeNormals
             (Exact.sub (Exact.cos (Exact.of_Z 1)) (Some (1 # 1000)%Q)) 1 [3]
             [mkSplit 1 [3]] eq_refl).
  - exact (edgeSplit_originals (H := Exact.ops) Samples.hingeNormals
             (Exact.sub (Exact.cos (Exact.of_Z 1)) (Some (1 # 1000)%Q)) 0 [3]
             [mkSplit 0 [3]] eq_refl).
Defined.

(** ** The store, the flag and the malformed buffers *)

Section Edges.
Context {num : Type} `{FloatOps num}.
Variable computeVertexNormals : BufferGeometry num → list num.
Variable BufferGeometryUtils : option (BufferGeometry num → BufferGeometry num).

Implicit Types (σ : list (BufferGeometry num)) (g out : BufferGeometry num)
  (ixs : list nat) (position : BufferAttribute num) (splits : list Split).

(** X6: whatever the outcome, the call only adds geometries to the store:
    the geometries that were there, the argument included, are left as
    they were. *)
Theorem modify_extends_store σ r cutOffAngle tryKeepNormals :
  σ `prefix_of`
    (modify computeVertexNormals BufferGeometryUtils σ r cutOffAngle tryKeepNormals).1.
Proof.
  unfold modify. destruct (σ !! r) as [g|] eqn:Hr; [|done].
  destruct (isGeometry g); [done|].
  destruct (getAttribute "normal" (attributes g)) as [normal|].
  - rewrite list_lookup_insert_eq by (rewrite length_app; simpl; lia).
    rewrite insert_app_r_alt by lia. rewrite Nat.sub_diag. simpl.
    destruct (index g); [by apply prefix_app_r|].
    destruct BufferGeometryUtils; [|by apply prefix_app_r].
    simpl. rewrite <- app_assoc. by apply prefix_app_r.
  - rewrite Hr. destruct (index g); [done|].
    destruct BufferGeometryUtils; [|done]. by apply prefix_app_r.
Qed.

(** X7: on a geometry without index [tryKeepNormals] changes nothing: the old
    normals are not kept, the merged geometry gets recomputed ones. *)
Theorem modify_nonindexed_ignores_flag σ r g cutOffAngle :
  σ !! r = Some g → index g = None →
  modify computeVertexNormals BufferGeometryUtils σ r cutOffAngle true
  = modify computeVertexNormals BufferGeometryUtils σ r cutOffAngle false.
Proof.
  intros Hr Hix. unfold modify. rewrite Hr.
  destruct (isGeometry g); [done|].
  destruct (getAttribute "normal" (attributes g)) as [normal|]; [|done].
  by rewrite Hix.
Qed.

(** X8: an indexed geometry without the attribute [position] makes the call
    throw a [TypeError]. *)
Theorem modify_without_position σ r g ixs cutOffAngle tryKeepNormals :
  σ !! r = Some g → isGeometry g = false → index g = Some ixs →
  getAttribute "position" (attributes g) = None →
  (modify computeVertexNormals BufferGeometryUtils σ r cutOffAngle tryKeepNormals).2
  = Thrown TypeError.
Proof.
  intros Hr Hmodern Hix Hpos.
  destruct (modify_indexed computeVertexNormals BufferGeometryUtils σ r g ixs
              cutOffAngle tryKeepNormals Hr Hmodern Hix) as (σ' & -> & _).
  simpl. unfold rebuild. simpl.
  rewrite getAttribute_deleteAttribute, decide_False by done. by rewrite Hpos.
Qed.

(** X9: positions that do not come in triples make the call throw a
    [RangeError], from [Array( positions.length / 3 )], before the loop
    over the corner index is entered. *)
Theorem modify_positions_not_in_triples σ r g ixs position cutOffAngle tryKeepNormals :
  σ !! r = Some g → isGeometry g = false → index g = Some ixs →
  getAttribute "position" (attributes g) = Some position →
  length (array position) `mod` 3 ≠ 0 →
  (modify computeVertexNormals BufferGeometryUtils σ r cutOffAngle tryKeepNormals).2
  = Thrown RangeError.
Proof.
  intros Hr Hmodern Hix Hpos Hmod.
  destruct (modify_indexed computeVertexNormals BufferGeometryUtils σ r g ixs
              cutOffAngle tryKeepNormals Hr Hmodern Hix) as (σ' & -> & _).
  simpl. unfold rebuild. simpl.
  rewrite getAttribute_deleteAttribute, decide_False by done. rewrite Hpos.
  by rewrite decide_False.
Qed.

Lemma newAttributesOf_too_long n (attrs : list (string * BufferAttribute num)) name a :
  (name, a) ∈ attrs → n * itemSize a < length (array a) → newAttributesOf n attrs = None.
Proof.
  intros Hin Hlong. destruct (newAttributesOf n attrs) as [new|] eqn:E; [|done].
  apply newAttributesOf_inv in E as [_ Hall].
  pose proof (proj1 (Forall_forall _ _) Hall _ Hin) as Hfit. simpl in Hfit. lia.
Qed.

(** X10: an attribute other than the normal whose array is longer than the
    rebuilt vertex count allows makes the call throw a [RangeError], from
    [newArray.set( oldAttribute.array )]. *)
Theorem modify_attribute_too_long σ r g ixs position cutOffAngle tryKeepNormals splits
    name a :
  σ !! r = Some g → isGeometry g = false → index g = Some ixs →
  getAttribute "position" (attributes g) = Some position →
  itemSize position = 3 → length (array position) `mod` 3 = 0 →
  splitIndexesOf ixs (array position) cutOffAngle = inr splits →
  (name, a) ∈ attributes g → name ≠ "normal"%string →
  (length (array position) / 3 + length splits) * itemSize a < length (array a) →
  (modify computeVertexNormals BufferGeometryUtils σ r cutOffAngle tryKeepNormals).2
  = Thrown RangeError.
Proof.
  intros Hr Hmodern Hix Hpos Hsz Hmod Hsplit Hin Hne Hlong.
  destruct (modify_indexed computeVertexNormals BufferGeometryUtils σ r g ixs
              cutOffAngle tryKeepNormals Hr Hmodern Hix) as (σ' & -> & _).
  simpl. unfold rebuild. simpl.
  rewrite getAttribute_deleteAttribute, decide_False by done.
  rewrite Hpos, Hsplit, Hsz. rewrite !decide_True by done.
  rewrite (newAttributesOf_too_long _ _ name a); [done| |done].
  unfold deleteAttribute. apply list_elem_of_filter. by split.
Qed.

(** X11: old normals that do not come in triples make the call throw a
    [RangeError] once everything else is rebuilt, from
    [new Array( oldNormals.length / 3 )], and only with [tryKeepNormals]:
    without it the same geometry is rebuilt and returned. *)
Theorem modify_old_normals_not_in_triples σ r g ixs position cutOffAngle splits normal :
  σ !! r = Some g → isGeometry g = false → index g = Some ixs →
  getAttribute "position" (attributes g) = Some position →
  itemSize position = 3 → length (array position) `mod` 3 = 0 →
  splitIndexesOf ixs (array position) cutOffAngle = inr splits →
  Forall (fun ka => length (array ka.2)
                    ≤ (length (array position) / 3 + length splits) * itemSize ka.2)
    (attributes g) →
  getAttribute "normal" (attributes g) = Some normal →
  length (array normal) `mod` 3 ≠ 0 →
  (modify computeVertexNormals BufferGeometryUtils σ r cutOffAngle true).2
  = Thrown RangeError
  ∧ ∃ out,
      (modify computeVertexNormals BufferGeometryUtils σ r cutOffAngle false).2
      = Returned out.
Proof.
  intros Hr Hmodern Hix Hpos Hsz Hmod Hsplit Hfit Hn Hbad. split.
  - destruct (modify_outcome computeVertexNormals BufferGeometryUtils σ r g ixs position
                cutOffAngle true splits Hr Hmodern Hix Hpos Hsz Hmod Hsplit Hfit)
      as (σ' & -> & _).
    simpl. unfold reconcileNormals. rewrite Hn.
    rewrite bool_decide_true by (by eexists). simpl. by rewrite decide_False.
  - destruct (modify_outcome computeVertexNormals BufferGeometryUtils σ r g ixs position
                cutOffAngle false splits Hr Hmodern Hix Hpos Hsz Hmod Hsplit Hfit)
      as (σ' & -> & _).
    simpl. unfold reconcileNormals. rewrite Hn.
    rewrite bool_decide_true by (by eexists). by eexists.
Qed.

End Edges.

(** ** Entries and the cells they come from *)

Section Entries.
Context {num : Type} `{FloatOps num}.
Implicit Types (normals : list num) (cutOff : num) (L : list nat)
  (m : list (option (list nat))) (splits : list Split).


Lemma splitAll_full normals cutOff m splits :
  splitAll normals cutOff m = inr splits → Forall is_Some m.
Proof.
  intros E. apply Forall_lookup. intros v [L|] Hv; [done|].
  by rewrite (splitAll_hole normals cutOff m v Hv) in E.
Qed.

(** Every cell keeps one group on its vertex: the entries are fewer than
    the corners by at least the number of cells. *)
Lemma splitAll_count normals cutOff m splits :
  splitAll normals cutOff m = inr splits → Forall (fun cell => cell ≠ Some []) m →
  length splits + length m ≤ cornerCount m.
Proof.
  revert splits. induction m as [|cell m IH]; intros splits E Hne.
  - injection E as <-. by unfold cornerCount.
  - destruct cell as [L|]; [|done]. simpl in E.
    destruct (edgeSplit _ _ _ _ _) as [pushed|] eqn:Ep; [|done].
    destruct (splitAll normals cutOff m) as [e'|more]; [done|].
    injection E as <-. apply Forall_cons in Hne as [HL Hne].
    specialize (IH more eq_refl Hne).
    destruct L as [|index0 L]; [done|]. apply edgeSplit_length_None in Ep.
    rewrite length_app. unfold cornerCount in *. simpl in *. lia.
Qed.

Lemma edgeSplit_entries_NoDup normals cutOff L pushed :
  NoDup L → edgeSplit (length L) normals L cutOff None = Some pushed →
  NoDup (concat (map indexes pushed)).
Proof.
  intros Hnd Hp.
  destruct (greedyGroups_partition normals cutOff L
              (edgeSplitGroups (length L) normals L cutOff)) as [Hperm _];
    [by apply edgeSplitGroups_greedy|done|].
  apply edgeSplit_groups in Hp. rewrite Hp.
  assert (NoDup (concat (edgeSplitGroups (length L) normals L cutOff))) as Hall
    by (by rewrite Hperm).
  destruct (edgeSplitGroups _ _ _ _) as [|group groups]; [constructor|].
  simpl in Hall. by apply NoDup_app in Hall as (_ & _ & ?).
Qed.

Lemma elem_of_concat_indexes splits x :
  x ∈ concat (map indexes splits) ↔ ∃ split, split ∈ splits ∧ x ∈ indexes split.
Proof.
  induction splits as [|split splits IH]; simpl.
  - split; [by intros ?%elem_of_nil|]. by intros (? & ?%elem_of_nil & _).
  - rewrite elem_of_app, IH. split.
    + intros [Hx|(split' & Hin & Hx)]; [exists split; split; [left|done]|].
      exists split'. split; [by right|done].
    + intros (split' & [->|Hin]%elem_of_cons & Hx); [by left|]. right. by exists split'.
Qed.

(** No corner is in two entries, when the cells are duplicate-free and
    pairwise disjoint. *)
Lemma splitAll_NoDup normals cutOff m splits :
  splitAll normals cutOff m = inr splits →
  (∀ v L, m !! v = Some (Some L) → NoDup L) →
  (∀ v v' L L' x, v ≠ v' → m !! v = Some (Some L) → m !! v' = Some (Some L') →
     x ∈ L → x ∉ L') →
  NoDup (concat (map indexes splits)).
Proof.
  revert splits. induction m as [|cell m IH]; intros splits E Hnd Hdisj.
  - injection E as <-. constructor.
  - destruct cell as [L|]; [|done]. simpl in E.
    destruct (edgeSplit _ _ _ _ _) as [pushed|] eqn:Ep; [|done].
    destruct (splitAll normals cutOff m) as [e'|more] eqn:Em; [done|].
    injection E as <-. rewrite map_app, concat_app. apply NoDup_app. split; [|split].
    + apply (edgeSplit_entries_NoDup normals cutOff L); [|done]. by apply (Hnd 0).
    + intros x Hx Hx'.
      apply elem_of_concat_indexes in Hx as (split & Hin & Hx).
      apply elem_of_concat_indexes in Hx' as (split' & Hin' & Hx').
      destruct (edgeSplit_corners _ _ _ _ _ _ _ Ep Hin) as [Hsub _].
      destruct (splitAll_corners _ _ _ _ _ Em Hin') as (v' & L' & Hv' & Hsub' & _).
      apply (Hdisj 0 (S v') L L' x); [done|done|done|by apply Hsub|by apply Hsub'].
    + apply (IH more eq_refl).
      * intros v L' Hv. by apply (Hnd (S v)).
      * intros v v' L1 L2 x Hne Hv Hv'. apply (Hdisj (S v) (S v')); [lia|done|done].
Qed.

Lemma splitIndexesOf_NoDup (ixs : list nat) (positions : list num) (cutOffAngle : num)
    splits :
  splitIndexesOf ixs positions cutOffAngle = inr splits →
  NoDup (concat (map indexes splits)).
Proof.
  unfold splitIndexesOf. intros E. apply (splitAll_NoDup _ _ _ _ E).
  - intros v L Hv. apply mapPositionsToIndexes_lookup in Hv as [-> _].
    apply NoDup_cornersOf.
  - intros v v' L L' x Hne Hv Hv' Hx Hx'.
    apply mapPositionsToIndexes_lookup in Hv as [-> _].
    apply mapPositionsToIndexes_lookup in Hv' as [-> _].
    apply elem_of_cornersOf in Hx. apply elem_of_cornersOf in Hx'. congruence.
Qed.

(** A corner is in the entry of one position at most. *)
Lemma entry_unique splits p q (split split' : Split) x :
  NoDup (concat (map indexes splits)) →
  splits !! p = Some split → splits !! q = Some split' →
  x ∈ indexes split → x ∈ indexes split' → p = q.
Proof.
  revert p q. induction splits as [|e splits IH]; intros p q Hnd Hp Hq Hx Hx'; [done|].
  simpl in Hnd. apply NoDup_app in Hnd as (_ & Hdisj & Hnd).
  destruct p as [|p], q as [|q]; simpl in Hp, Hq.
  - done.
  - injection Hp as ->. exfalso. apply (Hdisj x Hx).
    apply elem_of_concat_indexes. exists split'. split; [|done].
    by eapply list_elem_of_lookup_2.
  - injection Hq as ->. exfalso. apply (Hdisj x Hx').
    apply elem_of_concat_indexes. exists split. split; [|done].
    by eapply list_elem_of_lookup_2.
  - f_equal. by apply IH.
Qed.

Lemma splitIndexesOf_count (ixs : list nat) (positions : list num) (cutOffAngle : num)
    splits :
  splitIndexesOf ixs positions cutOffAngle = inr splits →
  length positions / 3 + length splits ≤ length ixs
  ∧ ∀ v, v < length positions / 3 → v ∈ ixs.
Proof.
  unfold splitIndexesOf. intros E.
  pose proof (splitAll_full _ _ _ _ E) as Hfull.
  pose proof (splitAll_count _ _ _ _ E) as Hcount.
  rewrite cornerCount_mapPositionsToIndexes in Hcount.
  pose proof (mapPositionsToIndexes_length ixs (length positions / 3)) as Hlen.
  split.
  - assert (Forall (fun cell => cell ≠ Some [])
              (mapPositionsToIndexes ixs (length positions / 3))) as Hne.
    { apply Forall_lookup. intros v cell Hv ->.
      apply mapPositionsToIndexes_lookup in Hv as [Hc Hv].
      symmetry in Hc. by apply cornersOf_nil_iff in Hc. }
    specialize (Hcount Hne). lia.
  - intros v Hv.
    destruct (lookup_lt_is_Some_2 (mapPositionsToIndexes ixs (length positions / 3)) v)
      as [cell Hcell]; [lia|].
    pose proof (proj1 (Forall_lookup _ _) Hfull v cell Hcell) as [L ->].
    by apply mapPositionsToIndexes_lookup in Hcell as [_ ?].
Qed.

End Entries.

(** ** The returned geometry as a mesh *)

Section Closure.
Context {num : Type} `{FloatOps num}.
Variable computeVertexNormals : BufferGeometry num → list num.
Variable BufferGeometryUtils : option (BufferGeometry num → BufferGeometry num).

Implicit Types (σ : list (BufferGeometry num)) (g out : BufferGeometry num)
  (ixs : list nat) (position : BufferAttribute num) (splits : list Split).

Lemma setNormal_absent (normal : list num) (attrs : list (string * BufferAttribute num)) :
  getAttribute "normal" attrs = None →
  setNormal normal attrs = attrs ++ [("normal"%string, mkAttribute normal 3 false)].
Proof.
  induction attrs as [|[k a] attrs IH]; simpl; [done|].
  case_decide as Hk; [done|]. intros E. by rewrite IH.
Qed.

Lemma rebuilt_without_normal ixs (attrs : list (string * BufferAttribute num)) V splits :
  getAttribute "normal" (attributes (rebuiltGeometry ixs (deleteAttribute "normal" attrs)
                                       V splits)) = None.
Proof.
  rewrite rebuilt_attribute, getAttribute_deleteAttribute. by rewrite decide_True.
Qed.

(** What the normals add to the rebuilt geometry: nothing when the input
    had none, one attribute [normal] at the end when it had. *)
Lemma reconcileNormals_shape (hadNormals : bool) oldNormals splits g out :
  reconcileNormals computeVertexNormals hadNormals oldNormals splits g = Returned out →
  isGeometry g = false → getAttribute "normal" (attributes g) = None →
  isGeometry out = false ∧ index out = index g
  ∧ if hadNormals
    then ∃ normal, attributes out
                   = attributes g ++ [("normal"%string, mkAttribute normal 3 false)]
                   ∧ length normal = length (computeVertexNormals g)
    else attributes out = attributes g.
Proof.
  unfold reconcileNormals. intros E Hmodern Hnone. destruct hadNormals.
  - destruct oldNormals as [old|]; [case_decide; [|done]|]; injection E as <-; simpl;
      (split; [done|]); (split; [done|]); rewrite setNormal_absent by done;
      eexists; (split; [done|]); by rewrite ?restoreNormals_length.
  - injection E as <-. done.
Qed.

Lemma copy_shape ixs V splits (a : BufferAttribute num) :
  length (array a) = V * itemSize a →
  itemSize (copyAll ixs V 0 splits (grown (V + length splits) a)) = itemSize a
  ∧ length (array (copyAll ixs V 0 splits (grown (V + length splits) a)))
    = (V + length splits) * itemSize a.
Proof.
  intros Hlen.
  destruct (copyAll_itemSize ixs V 0 splits (grown (V + length splits) a))
    as (-> & _ & ->).
  split; [done|]. simpl. rewrite length_app, length_replicate. nia.
Qed.

(** X12: the vertex count never shrinks and never exceeds the number of
    corners: the returned positions hold the input's vertices and one more
    for every entry, and the entries are at most the corners in excess of
    one per vertex. *)
Theorem modify_vertex_count σ r g ixs position cutOffAngle tryKeepNormals σ' out :
  σ !! r = Some g → validMesh g ixs position →
  modify computeVertexNormals BufferGeometryUtils σ r cutOffAngle tryKeepNormals
  = (σ', Returned out) →
  ∃ splits position',
    splitIndexesOf ixs (array position) cutOffAngle = inr splits
    ∧ getAttribute "position" (attributes out) = Some position'
    ∧ length (array position') = 3 * (length (array position) / 3 + length splits)
    ∧ length (array position) / 3 + length splits ≤ length ixs.
Proof.
  intros Hr Hv Hm.
  destruct (modify_returned_inv _ _ _ _ _ _ _ _ _ _ _ Hr Hv Hm) as (splits & Hsplit & Hrec).
  apply reconcileNormals_inv in Hrec as [_ Hattrs].
  exists splits. eexists. split; [done|]. split.
  - rewrite (Hattrs "position"%string) by done. rewrite rebuilt_attribute.
    rewrite getAttribute_deleteAttribute, decide_False by done.
    by rewrite (valid_position _ _ _ Hv).
  - split; [|by apply splitIndexesOf_count in Hsplit as [? _]].
    pose proof (valid_attribute_length _ _ _ _ _ Hv (valid_position _ _ _ Hv)) as Hlen.
    destruct (copy_shape ixs (length (array position) / 3) splits position Hlen)
      as [_ ->].
    rewrite (valid_position_size _ _ _ Hv). lia.
Qed.

(** X13: the call maps valid meshes to valid meshes, as long as
    [computeVertexNormals] installs three numbers per vertex: the returned
    geometry is indexed, its attributes all hold the new vertex count, and
    every index of its buffer is the number of one of its vertices. *)
Theorem modify_returns_valid_mesh σ r g ixs position cutOffAngle tryKeepNormals σ' out :
  σ !! r = Some g → validMesh g ixs position →
  (N.of_nat (length (array position) / 3 + length ixs) ≤ 2 ^ 32)%N →
  (∀ splits, splitIndexesOf ixs (array position) cutOffAngle = inr splits →
     length (computeVertexNormals
               (rebuiltGeometry ixs (deleteAttribute "normal" (attributes g))
                  (length (array position) / 3) splits))
     = (length (array position) / 3 + length splits) * 3) →
  modify computeVertexNormals BufferGeometryUtils σ r cutOffAngle tryKeepNormals
  = (σ', Returned out) →
  ∃ newIndexes position', validMesh out newIndexes position'.
Proof.
  intros Hr Hv Hfit Hcvn Hm.
  destruct (modify_returned_inv _ _ _ _ _ _ _ _ _ _ _ Hr Hv Hm) as (splits & Hsplit & Hrec).
  set (V := length (array position) / 3) in *.
  set (attrs := deleteAttribute "normal" (attributes g)) in *.
  set (copy := fun a : BufferAttribute num =>
                 copyAll ixs V 0 splits (grown (V + length splits) a)).
  pose proof (reconcileNormals_inv _ _ _ _ _ _ Hrec) as [Hindex Hother].
  destruct (reconcileNormals_shape _ _ _ _ _ Hrec eq_refl
              (rebuilt_without_normal ixs (attributes g) V splits))
    as (Hmodern & _ & Hshape).
  pose proof (valid_attribute_length _ _ _ _ _ Hv (valid_position _ _ _ Hv)) as Hlen.
  fold V in Hlen.
  destruct (copy_shape ixs V splits position Hlen) as [Hsz Hlen'].
  rewrite (valid_position_size _ _ _ Hv) in Hsz, Hlen'.
  assert (getAttribute "position" (attributes out) = Some (copy position)) as Hpos.
  { rewrite (Hother "position"%string) by done. rewrite rebuilt_attribute. unfold attrs.
    rewrite getAttribute_deleteAttribute, decide_False by done.
    by rewrite (valid_position _ _ _ Hv). }
  assert (length (array (copy position)) / 3 = V + length splits) as Hcount
    by (unfold copy; rewrite Hlen'; apply Nat.div_mul; done).
  assert (Forall (fun ka => length (array ka.2) = (V + length splits) * itemSize ka.2)
            (attributes (rebuiltGeometry ixs attrs V splits))) as Hcounts.
  { unfold rebuiltGeometry. simpl. apply Forall_map, Forall_forall. intros [k a] Hka.
    simpl. apply deleteAttribute_subseteq in Hka.
    destruct (copy_shape ixs V splits a) as [-> ->]; [|done].
    by apply (proj1 (Forall_forall _ _) (valid_counts _ _ _ Hv) _ Hka). }
  assert (∃ newIndexes, index out = Some newIndexes
                        ∧ index (rebuiltGeometry ixs attrs V splits) = Some newIndexes)
    as (newIndexes & Hio & Hir) by (eexists; split; [rewrite Hindex|]; done).
  exists newIndexes, (copy position). split.
  - exact Hmodern.
  - exact Hio.
  - exact Hpos.
  - exact Hsz.
  - unfold copy. rewrite Hlen'. apply Nat.Div0.mod_mul.
  - rewrite Hcount. destruct (bool_decide _).
    + destruct Hshape as (normal & -> & Hn). apply Forall_app. split; [done|].
      repeat constructor. simpl. rewrite Hn. by apply Hcvn.
    + by rewrite Hshape.
  - intros normal Hn. destruct (bool_decide _).
    + destruct Hshape as (normal' & Hattrs & _). rewrite Hattrs in Hn.
      pose proof (f_equal (fmap itemSize) Hn) as Hn'. revert Hn'.
      pose proof (rebuilt_without_normal ixs (attributes g) V splits) as Hnone.
      fold attrs in Hnone. revert Hnone. clear.
      generalize (attributes (rebuiltGeometry ixs attrs V splits)).
      intros l. induction l as [|[k a] l IH]; simpl.
      * intros _. by intros [= <-].
      * case_decide; [done|]. apply IH.
    + rewrite Hshape in Hn.
      pose proof (rebuilt_without_normal ixs (attributes g) V splits) as Hnone.
      fold attrs in Hnone. congruence.
  - rewrite Hcount. apply Forall_lookup. intros s w Hs.
    assert (s < length ixs) as Hlt.
    { apply lookup_lt_Some in Hs. injection Hir as <-.
      by rewrite applySplits_length, length_map in Hs. }
    destruct (lookup_lt_is_Some_2 ixs s Hlt) as [v Hsv].
    pose proof (valid_index_lt _ _ _ _ _ Hv Hsv) as Hvlt. fold V in Hvlt.
    destruct (rebuilt_index g ixs position cutOffAngle splits attrs s v Hv Hsplit Hfit Hsv)
      as (newIndexes' & Hix & _ & [[E _]|(p & split & Hp & _ & _ & E)]);
      fold V in Hix, E; rewrite Hir in Hix; injection Hix as <-;
      rewrite E in Hs; injection Hs as <-.
    + lia.
    + apply lookup_lt_Some in Hp. lia.
Qed.

(** X14: the returned geometry has the attributes of the input under the
    same names and in the same order, except for the normal: a geometry
    that came without normals comes back without, and one that came with
    normals comes back with its normal last. *)
Theorem modify_attribute_names σ r g ixs position cutOffAngle tryKeepNormals σ' out :
  σ !! r = Some g → validMesh g ixs position →
  modify computeVertexNormals BufferGeometryUtils σ r cutOffAngle tryKeepNormals
  = (σ', Returned out) →
  map fst (attributes out)
  = map fst (deleteAttribute "normal" (attributes g))
    ++ match getAttribute "normal" (attributes g) with
       | Some _ => ["normal"%string]
       | None => []
       end.
Proof.
  intros Hr Hv Hm.
  destruct (modify_returned_inv _ _ _ _ _ _ _ _ _ _ _ Hr Hv Hm) as (splits & Hsplit & Hrec).
  destruct (reconcileNormals_shape _ _ _ _ _ Hrec eq_refl
              (rebuilt_without_normal ixs (attributes g) _ splits))
    as (_ & _ & Hshape).
  assert (map fst (attributes (rebuiltGeometry ixs (deleteAttribute "normal" (attributes g))
                                 (length (array position) / 3) splits))
          = map fst (deleteAttribute "normal" (attributes g))) as Hkeys.
  { unfold rebuiltGeometry. simpl. by rewrite map_map. }
  destruct (getAttribute "normal" (attributes g)) as [normal|] eqn:En.
  - rewrite bool_decide_true in Hshape by (by eexists).
    destruct Hshape as (normal' & -> & _). by rewrite map_app, Hkeys.
  - rewrite bool_decide_false in Hshape by (by intros [? ?]).
    by rewrite Hshape, Hkeys, app_nil_r.
Qed.

End Closure.

(** ** Corners, groups and the vertices they end on *)

Section Corners.
Context {num : Type} `{FloatOps num}.
Variable computeVertexNormals : BufferGeometry num → list num.
Variable BufferGeometryUtils : option (BufferGeometry num → BufferGeometry num).

Implicit Types (σ : list (BufferGeometry num)) (g out : BufferGeometry num)
  (ixs : list nat) (position : BufferAttribute num) (splits : list Split).

(** X15: two corners end on the same vertex of the returned geometry exactly
    when they referenced the same vertex and no entry holds one of them
    without the other: every entry gets a vertex of its own, and the
    corners left in no entry stay together on the vertex they had. *)
Theorem modify_separates_entries σ r g ixs position cutOffAngle tryKeepNormals σ' out :
  σ !! r = Some g → validMesh g ixs position →
  (N.of_nat (length (array position) / 3 + length ixs) ≤ 2 ^ 32)%N →
  modify computeVertexNormals BufferGeometryUtils σ r cutOffAngle tryKeepNormals
  = (σ', Returned out) →
  ∃ splits newIndexes,
    splitIndexesOf ixs (array position) cutOffAngle = inr splits
    ∧ index out = Some newIndexes
    ∧ ∀ s s' v v', ixs !! s = Some v → ixs !! s' = Some v' →
        newIndexes !! s = newIndexes !! s'
        ↔ v = v' ∧ ∀ split, split ∈ splits → s ∈ indexes split ↔ s' ∈ indexes split.
Proof.
  intros Hr Hv Hfit Hm.
  destruct (modify_returned_inv _ _ _ _ _ _ _ _ _ _ _ Hr Hv Hm) as (splits & Hsplit & Hrec).
  apply reconcileNormals_inv in Hrec as [Hindex _].
  pose proof (splitIndexesOf_NoDup _ _ _ _ Hsplit) as Hnd.
  exists splits. eexists. split; [done|]. split; [by rewrite Hindex|].
  intros s s' v v' Hs Hs'.
  destruct (rebuilt_index g ixs position cutOffAngle splits
              (deleteAttribute "normal" (attributes g)) s v Hv Hsplit Hfit Hs)
    as (n1 & Hix & _ & Hc).
  destruct (rebuilt_index g ixs position cutOffAngle splits
              (deleteAttribute "normal" (attributes g)) s' v' Hv Hsplit Hfit Hs')
    as (n2 & Hix' & _ & Hc').
  injection Hix as <-. injection Hix' as <-.
  pose proof (valid_index_lt _ _ _ _ _ Hv Hs) as Hlt.
  pose proof (valid_index_lt _ _ _ _ _ Hv Hs') as Hlt'.
  destruct Hc as [[E Hno]|(p & split & Hp & Hin & Ho & E)],
      Hc' as [[E' Hno']|(p' & split' & Hp' & Hin' & Ho' & E')]; rewrite E, E'.
  - split.
    + intros [= ->]. split; [done|]. intros split Hsp.
      split; intros Hin; [by apply Hno in Hin|by apply Hno' in Hin].
    + by intros [-> _].
  - split.
    + intros [= ->]. lia.
    + intros [_ Hiff]. exfalso. apply (Hno split'); [by eapply list_elem_of_lookup_2|].
      apply Hiff; [by eapply list_elem_of_lookup_2|done].
  - split.
    + intros [= E0]. lia.
    + intros [_ Hiff]. exfalso. apply (Hno' split); [by eapply list_elem_of_lookup_2|].
      apply Hiff; [by eapply list_elem_of_lookup_2|done].
  - split.
    + intros [= Hpp]. assert (p' = p) as -> by lia.
      rewrite Hp in Hp'. injection Hp' as <-. split; [congruence|].
      intros split2 [q Hq]%list_elem_of_lookup. split; intros Hx.
      * assert (q = p) as -> by (by apply (entry_unique splits q p split2 split s)).
        rewrite Hp in Hq. by injection Hq as <-.
      * assert (q = p) as -> by (by apply (entry_unique splits q p split2 split s')).
        rewrite Hp in Hq. by injection Hq as <-.
    + intros [_ Hiff]. do 2 f_equal.
      apply (entry_unique splits p p' split split' s'); try done.
      apply Hiff; [by eapply list_elem_of_lookup_2|done].
Qed.


(** X17: with [tryKeepNormals], on a valid mesh with normals: the normal the
    returned geometry has at vertex number [v] is the old normal, rounded
    to single precision, when [v] is a vertex of the input and no entry
    has the number [v] as [original], a corner slot; at the other input
    vertices, and at every new vertex, it is the recomputed normal. *)
Theorem modify_restores_unmarked σ r g ixs position normal cutOffAngle σ' out :
  σ !! r = Some g → validMesh g ixs position →
  getAttribute "normal" (attributes g) = Some normal →
  modify computeVertexNormals BufferGeometryUtils σ r cutOffAngle true
  = (σ', Returned out) →
  ∃ splits normal',
    splitIndexesOf ixs (array position) cutOffAngle = inr splits
    ∧ array <$> getAttribute "normal" (attributes out) = Some normal'
    ∧ let V := length (array position) / 3 in
      let computed :=
        computeVertexNormals
          (rebuiltGeometry ixs (deleteAttribute "normal" (attributes g)) V splits) in
      ∀ v j, j < 3 →
        normal' !! (3 * v + j)
        = if decide (v < V ∧ (v ∉ map original splits)
                     ∧ 3 * v + j < length computed)
          then Some (fround (rd (array normal) (3 * v + j)))
          else computed !! (3 * v + j).
Proof.
  intros Hr Hv En Hm.
  destruct (modify_returned_inv _ _ _ _ _ _ _ _ _ _ _ Hr Hv Hm) as (splits & Hsplit & Hrec).
  rewrite En in Hrec. rewrite bool_decide_true in Hrec by (by eexists).
  change (array <$> Some normal) with (Some (array normal)) in Hrec.
  pose proof (valid_attribute_length _ _ _ _ _ Hv En) as Hlen.
  rewrite (valid_normal_size _ _ _ Hv _ En) in Hlen.
  apply restored_unless_original in Hrec as (normal' & Hn & Hrest);
    [|rewrite Hlen; apply Nat.Div0.mod_mul].
  exists splits, normal'. split; [done|]. split; [done|].
  intros V computed v j Hj. rewrite (Hrest v j Hj).
  rewrite Hlen, Nat.div_mul by done. done.
Qed.

Lemma modify_store_flag σ r cutOffAngle :
  (modify computeVertexNormals BufferGeometryUtils σ r cutOffAngle true).1
  = (modify computeVertexNormals BufferGeometryUtils σ r cutOffAngle false).1.
Proof.
  unfold modify. destruct (σ !! r) as [g|] eqn:Hr; [|done].
  destruct (isGeometry g); [done|].
  destruct (getAttribute "normal" (attributes g)) as [normal|].
  - rewrite list_lookup_insert_eq by (rewrite length_app; simpl; lia).
    simpl. destruct (index g); [done|]. by destruct BufferGeometryUtils.
  - rewrite Hr. destruct (index g); [done|]. by destruct BufferGeometryUtils.
Qed.

(** X18: [tryKeepNormals] reaches the normals only: on a valid mesh the call
    that keeps them and the call that does not leave the same store and
    return geometries with the same index buffer and the same values in
    every other attribute. *)
Theorem modify_flag_only_normals σ r g ixs position cutOffAngle σ' out :
  σ !! r = Some g → validMesh g ixs position →
  modify computeVertexNormals BufferGeometryUtils σ r cutOffAngle true
  = (σ', Returned out) →
  ∃ out',
    modify computeVertexNormals BufferGeometryUtils σ r cutOffAngle false
    = (σ', Returned out')
    ∧ index out' = index out
    ∧ ∀ name, name ≠ "normal"%string →
        getAttribute name (attributes out') = getAttribute name (attributes out).
Proof.
  intros Hr Hv Hm.
  destruct (modify_returned_inv _ _ _ _ _ _ _ _ _ _ _ Hr Hv Hm) as (splits & Hsplit & Hrec).
  destruct (modify_valid computeVertexNormals BufferGeometryUtils σ r g ixs position
              cutOffAngle false splits Hr Hv Hsplit) as (σ2 & Hm2 & _).
  edestruct (reconcileNormals_returns computeVertexNormals g ixs position false splits)
    as [out' Hrec']; [done|].
  pose proof (modify_store_flag σ r cutOffAngle) as Hstore.
  rewrite Hm, Hm2 in Hstore. simpl in Hstore. subst σ2.
  exists out'. split; [by rewrite Hm2, Hrec'|].
  apply reconcileNormals_inv in Hrec as [Hi Ha].
  apply reconcileNormals_inv in Hrec' as [Hi' Ha'].
  split; [by rewrite Hi, Hi'|]. intros name Hne. by rewrite Ha, Ha'.
Qed.

(** X19: on a geometry without index and without normals the call is the call
    on the merged geometry, as long as [mergeVertices] gives an indexed
    [BufferGeometry] without normals; the merged geometry is the one
    geometry added to the store. *)
Theorem modify_nonindexed_merges σ r g merge cutOffAngle tryKeepNormals :
  σ !! r = Some g → isGeometry g = false → index g = None →
  getAttribute "normal" (attributes g) = None →
  isGeometry (merge g) = false → index (merge g) ≠ None →
  getAttribute "normal" (attributes (merge g)) = None →
  modify computeVertexNormals (Some merge) σ r cutOffAngle tryKeepNormals
  = (σ ++ [merge g],
     (modify computeVertexNormals BufferGeometryUtils [merge g] 0 cutOffAngle
        tryKeepNormals).2).
Proof.
  intros Hr Hmodern Hix Hn Hmodern' Hix' Hn'. unfold modify. simpl.
  rewrite Hr, Hmodern, Hn, Hr, Hix, Hmodern', Hn'. simpl.
  by destruct (index (merge g)).
Qed.

End Corners.

(** ** The properties on the sample meshes *)

Lemma hinge_splits :
  splitIndexesOf hingeIndexes (array hingePosition) (Exact.of_Z 1) = inr hingeSplits.
Proof. by vm_compute. Qed.

Lemma hinge_returns (tryKeepNormals : bool) :
  ∃ σ' out,
    modify Exact.computeVertexNormals None [Samples.hinge] 0 (Exact.of_Z 1) tryKeepNormals
    = (σ', Returned out).
Proof.
  apply (modify_returns _ _ [Samples.hinge] 0 Samples.hinge hingeIndexes hingePosition).
  - reflexivity.
  - apply hinge_valid.
  - apply hinge_referenced.
Qed.

Lemma hinge_recomputed splits :
  splitIndexesOf hingeIndexes (array hingePosition) (Exact.of_Z 1) = inr splits →
  length (Exact.computeVertexNormals
            (rebuiltGeometry hingeIndexes (deleteAttribute "normal" (attributes Samples.hinge))
               (length (array hingePosition) / 3) splits))
  = (length (array hingePosition) / 3 + length splits) * 3.
Proof. rewrite hinge_splits. intros [= <-]. by vm_compute. Qed.


Lemma modify_nonindexed_ignores_flag_witness :
  modify Exact.computeVertexNormals (Some indexEveryVertex) [Samples.soup] 0
    (Exact.of_Z 1) true
  = modify Exact.computeVertexNormals (Some indexEveryVertex) [Samples.soup] 0
      (Exact.of_Z 1) false.
Proof.
  exact (modify_nonindexed_ignores_flag Exact.computeVertexNormals (Some indexEveryVertex)
           [Samples.soup] 0 Samples.soup (Exact.of_Z 1) eq_refl eq_refl).
Defined.

Lemma modify_without_position_witness :
  (modify Exact.computeVertexNormals None [bare] 0 (Exact.of_Z 1) true).2
  = Thrown TypeError.
Proof.
  exact (modify_without_position Exact.computeVertexNormals None [bare] 0 bare [0; 1; 2]
           (Exact.of_Z 1) true eq_refl eq_refl eq_refl eq_refl).
Defined.

Lemma modify_positions_not_in_triples_witness :
  length (array raggedPosition) = 10
  ∧ (modify Exact.computeVertexNormals None [ragged] 0 (Exact.of_Z 1) true).2
    = Thrown RangeError.
Proof.
  split; [reflexivity|].
  apply (modify_positions_not_in_triples Exact.computeVertexNormals None [ragged] 0 ragged
           [0; 1; 2] raggedPosition (Exact.of_Z 1) true eq_refl eq_refl eq_refl eq_refl).
  vm_compute. discriminate.
Defined.

Lemma modify_attribute_too_long_witness :
  length (array longUv) = 14
  ∧ (length (array hingePosition) / 3 + length hingeSplits) * itemSize longUv = 12
  ∧ (modify Exact.computeVertexNormals None [hingeWithLongUv] 0 (Exact.of_Z 1) true).2
    = Thrown RangeError.
Proof.
  split; [reflexivity|]. split; [reflexivity|].
  apply (modify_attribute_too_long Exact.computeVertexNormals None [hingeWithLongUv] 0
           hingeWithLongUv hingeIndexes hingePosition (Exact.of_Z 1) true hingeSplits
           "uv"%string longUv eq_refl eq_refl eq_refl eq_refl eq_refl eq_refl hinge_splits).
  - right. left.
  - discriminate.
  - vm_compute. lia.
Defined.

Lemma modify_old_normals_not_in_triples_witness :
  length (array raggedNormal) = 13
  ∧ (modify Exact.computeVertexNormals None [hingeWithRaggedNormals] 0 (Exact.of_Z 1)
       true).2
    = Thrown RangeError
  ∧ ∃ out,
      (modify Exact.computeVertexNormals None [hingeWithRaggedNormals] 0 (Exact.of_Z 1)
         false).2
      = Returned out.
Proof.
  split; [reflexivity|].
  apply (modify_old_normals_not_in_triples Exact.computeVertexNormals None
           [hingeWithRaggedNormals] 0 hingeWithRaggedNormals hingeIndexes hingePosition
           (Exact.of_Z 1) hingeSplits raggedNormal
           eq_refl eq_refl eq_refl eq_refl eq_refl eq_refl hinge_splits).
  - repeat constructor; vm_compute; lia.
  - reflexivity.
  - vm_compute. discriminate.
Defined.

Lemma modify_vertex_count_witness :
  ∃ σ' out position',
    modify Exact.computeVertexNormals None [Samples.hinge] 0 (Exact.of_Z 1) true
    = (σ', Returned out)
    ∧ getAttribute "position" (attributes out) = Some position'
    ∧ length (array position') = 18.
Proof.
  destruct (hinge_returns true) as (σ' & out & Hm).
  destruct (modify_vertex_count Exact.computeVertexNormals None [Samples.hinge] 0
              Samples.hinge hingeIndexes hingePosition (Exact.of_Z 1) true σ' out
              eq_refl hinge_valid Hm)
    as (splits & position' & Hsplit & Hpos & Hlen & _).
  exists σ', out, position'. split; [exact Hm|]. split; [exact Hpos|].
  rewrite hinge_splits in Hsplit. injection Hsplit as <-. exact Hlen.
Defined.

Lemma modify_returns_valid_mesh_witness :
  ∃ σ' out newIndexes position',
    modify Exact.computeVertexNormals None [Samples.hinge] 0 (Exact.of_Z 1) true
    = (σ', Returned out)
    ∧ validMesh out newIndexes position'.
Proof.
  destruct (hinge_returns true) as (σ' & out & Hm).
  destruct (modify_returns_valid_mesh Exact.computeVertexNormals None [Samples.hinge] 0
              Samples.hinge hingeIndexes hingePosition (Exact.of_Z 1) true σ' out
              eq_refl hinge_valid hinge_fits hinge_recomputed Hm)
    as (newIndexes & position' & Hvalid).
  exists σ', out, newIndexes, position'. split; [exact Hm|exact Hvalid].
Defined.

Lemma modify_attribute_names_witness :
  ∃ σ' out,
    modify Exact.computeVertexNormals None [Samples.hinge] 0 (Exact.of_Z 1) true
    = (σ', Returned out)
    ∧ map fst (attributes out) = ["position"; "normal"]%string.
Proof.
  destruct (hinge_returns true) as (σ' & out & Hm).
  exists σ', out. split; [exact Hm|].
  exact (modify_attribute_names Exact.computeVertexNormals None [Samples.hinge] 0
           Samples.hinge hingeIndexes hingePosition (Exact.of_Z 1) true σ' out
           eq_refl hinge_valid Hm).
Defined.

Lemma modify_separates_entries_witness :
  ∃ σ' out newIndexes,
    modify Exact.computeVertexNormals None [Samples.hinge] 0 (Exact.of_Z 1) true
    = (σ', Returned out)
    ∧ index out = Some newIndexes
    ∧ ∀ s s' v v', hingeIndexes !! s = Some v → hingeIndexes !! s' = Some v' →
        newIndexes !! s = newIndexes !! s'
        ↔ v = v' ∧ ∀ split, split ∈ hingeSplits → s ∈ indexes split ↔ s' ∈ indexes split.
Proof.
  destruct (hinge_returns true) as (σ' & out & Hm).
  destruct (modify_separates_entries Exact.computeVertexNormals None [Samples.hinge] 0
              Samples.hinge hingeIndexes hingePosition (Exact.of_Z 1) true σ' out
              eq_refl hinge_valid hinge_fits Hm)
    as (splits & newIndexes & Hsplit & Hix & Hsame).
  exists σ', out, newIndexes. split; [exact Hm|]. split; [exact Hix|].
  rewrite hinge_splits in Hsplit. injection Hsplit as <-. exact Hsame.
Defined.


Lemma modify_restores_unmarked_witness :
  ∃ σ' out normal',
    modify Exact.computeVertexNormals None [Samples.hinge] 0 (Exact.of_Z 1) true
    = (σ', Returned out)
    ∧ array <$> getAttribute "normal" (attributes out) = Some normal'
    ∧ let computed :=
        Exact.computeVertexNormals
          (rebuiltGeometry hingeIndexes (deleteAttribute "normal" (attributes Samples.hinge))
             (length (array hingePosition) / 3) hingeSplits) in
      ∀ v j, j < 3 →
        normal' !! (3 * v + j)
        = if decide (v < length (array hingePosition) / 3
                     ∧ (v ∉ map original hingeSplits)
                     ∧ 3 * v + j < length computed)
          then Some (fround (rd hingeOldNormals (3 * v + j)))
          else computed !! (3 * v + j).
Proof.
  destruct (hinge_returns true) as (σ' & out & Hm).
  destruct (modify_restores_unmarked Exact.computeVertexNormals None [Samples.hinge] 0
              Samples.hinge hingeIndexes hingePosition
              (mkAttribute hingeOldNormals 3 false) (Exact.of_Z 1) σ' out
              eq_refl hinge_valid eq_refl Hm)
    as (splits & normal' & Hsplit & Hn & Hrest).
  exists σ', out, normal'. split; [exact Hm|]. split; [exact Hn|].
  rewrite hinge_splits in Hsplit. injection Hsplit as <-. exact Hrest.
Defined.

Lemma modify_flag_only_normals_witness :
  ∃ σ' out out',
    modify Exact.computeVertexNormals None [Samples.hinge] 0 (Exact.of_Z 1) true
    = (σ', Returned out)
    ∧ modify Exact.computeVertexNormals None [Samples.hinge] 0 (Exact.of_Z 1) false
      = (σ', Returned out')
    ∧ index out' = index out
    ∧ getAttribute "position" (attributes out') = getAttribute "position" (attributes out).
Proof.
  destruct (hinge_returns true) as (σ' & out & Hm).
  destruct (modify_flag_only_normals Exact.computeVertexNormals None [Samples.hinge] 0
              Samples.hinge hingeIndexes hingePosition (Exact.of_Z 1) σ' out
              eq_refl hinge_valid Hm)
    as (out' & Hm' & Hix & Hattrs).
  exists σ', out, out'. split; [exact Hm|]. split; [exact Hm'|]. split; [exact Hix|].
  apply Hattrs. discriminate.
Defined.

Lemma modify_nonindexed_merges_witness :
  modify Exact.computeVertexNormals (Some indexEveryVertex) [loose] 0 (Exact.of_Z 1) true
  = ([loose; indexEveryVertex loose],
     (modify Exact.computeVertexNormals None [indexEveryVertex loose] 0 (Exact.of_Z 1)
        true).2).
Proof.
  apply (modify_nonindexed_merges Exact.computeVertexNormals None [loose] 0 loose
           indexEveryVertex (Exact.of_Z 1) true eq_refl eq_refl eq_refl eq_refl eq_refl);
    [discriminate|reflexivity].
Defined.
